(** * VIB34D unified reactivity: parameter coordination and momentum decay

    A shallow embedding of [src/controls/UnifiedReactivitySystem.js]: the
    class [UnifiedReactivitySystem] (parameter store, relationship table,
    constraint policy, smoother, per-frame pass) and the momentum loop of
    the class [TouchGyroscope6D].

    Numbers.  A JavaScript number is modelled by [number]: the three
    special values NaN, +Infinity and -Infinity, and the finite values,
    which are carried as exact rationals ([Qc]).  Arithmetic on the special
    values follows IEEE 754; arithmetic on finite values is exact, so the
    rounding and the overflow of binary64 and the sign of zero are outside
    the model.

    Objects.  A JavaScript object used as a dictionary is a [gmap] with
    string keys; a missing key is [undefined], modelled by [None].  Names
    inherited from [Object.prototype] are outside the model.

    Exceptions and loops.  A function that can throw returns [option],
    [None] standing for the exception.  The two [while] loops of
    [constrainParameter] take a fuel argument and return [None] when it
    runs out. *)

From Stdlib Require Import QArith Qcanon Lqa.
From stdpp Require Import gmap strings list fin_maps.

Local Open Scope Qc_scope.

(** ** JavaScript numbers *)

Module JsNumber.

Inductive number : Type :=
  | NaN
  | PosInf
  | NegInf
  | Fin (q : Qc).

#[global] Instance number_eq_dec : EqDecision number.
Proof. solve_decision. Defined.

(** A decimal literal of the source. *)
Definition num (q : Q) : number := Fin (Q2Qc q).
#[global] Arguments num q%_Q.

Definition is_finite (x : number) : Prop :=
  match x with Fin _ => True | _ => False end.

#[global] Instance is_finite_dec (x : number) : Decision (is_finite x).
Proof. destruct x; apply _. Defined.

Definition Qcltb (a b : Qc) : bool :=
  match a ?= b with Lt => true | _ => false end.

(** [x + y] *)
Definition add (x y : number) : number :=
  match x, y with
  | NaN, _ | _, NaN => NaN
  | PosInf, NegInf | NegInf, PosInf => NaN
  | PosInf, _ | _, PosInf => PosInf
  | NegInf, _ | _, NegInf => NegInf
  | Fin a, Fin b => Fin (a + b)
  end.

(** [-x] *)
Definition neg (x : number) : number :=
  match x with
  | NaN => NaN
  | PosInf => NegInf
  | NegInf => PosInf
  | Fin a => Fin (- a)
  end.

(** [x - y] *)
Definition sub (x y : number) : number := add x (neg y).

(** The infinity that [x * Infinity] gives for a finite [x]. *)
Definition scale_inf (a : Qc) (pos : bool) : number :=
  match a ?= 0 with
  | Eq => NaN
  | Gt => if pos then PosInf else NegInf
  | Lt => if pos then NegInf else PosInf
  end.

(** [x * y] *)
Definition mul (x y : number) : number :=
  match x, y with
  | NaN, _ | _, NaN => NaN
  | PosInf, PosInf | NegInf, NegInf => PosInf
  | PosInf, NegInf | NegInf, PosInf => NegInf
  | PosInf, Fin a | Fin a, PosInf => scale_inf a true
  | NegInf, Fin a | Fin a, NegInf => scale_inf a false
  | Fin a, Fin b => Fin (a * b)
  end.

Definition Qcabs (a : Qc) : Qc := if Qcltb a 0 then - a else a.

(** [Math.abs(x)] *)
Definition Math_abs (x : number) : number :=
  match x with
  | NaN => NaN
  | PosInf | NegInf => PosInf
  | Fin a => Fin (Qcabs a)
  end.

(** [x < y]; every comparison with NaN is false. *)
Definition lt (x y : number) : bool :=
  match x, y with
  | NaN, _ | _, NaN => false
  | _, NegInf => false
  | PosInf, _ => false
  | NegInf, _ => true
  | Fin _, PosInf => true
  | Fin a, Fin b => Qcltb a b
  end.

(** [x > y] *)
Definition gt (x y : number) : bool := lt y x.

(** [Math.max(x, y)]: NaN as soon as one argument is NaN. *)
Definition Math_max (x y : number) : number :=
  match x, y with
  | NaN, _ | _, NaN => NaN
  | _, _ => if lt x y then y else x
  end.

(** [Math.min(x, y)] *)
Definition Math_min (x y : number) : number :=
  match x, y with
  | NaN, _ | _, NaN => NaN
  | _, _ => if lt y x then y else x
  end.

(** ToBoolean on a number: [0] and NaN are falsy. *)
Definition truthy (x : number) : bool :=
  match x with
  | NaN => false
  | Fin a => negb (bool_decide (a = 0))
  | _ => true
  end.

(** [v || d] where [v] is a number or [undefined]. *)
Definition or_default (v : option number) (d : number) : number :=
  match v with
  | Some x => if truthy x then x else d
  | None => d
  end.

(** [Math.abs(v)] where [v] is a number or [undefined]:
    [Math.abs(undefined)] is NaN. *)
Definition Math_abs_value (v : option number) : number :=
  match v with
  | Some x => Math_abs x
  | None => NaN
  end.

End JsNumber.

Import JsNumber.

Declare Scope number_scope.
Delimit Scope number_scope with num.
Bind Scope number_scope with number.
Infix "+" := add : number_scope.
Infix "-" := sub : number_scope.
Infix "*" := mul : number_scope.
Infix "<?" := lt : number_scope.
Infix ">?" := gt : number_scope.

(** [forEach] over an array, with a callback that can throw. *)
Fixpoint forEach {A S : Type} (f : S -> A -> option S) (l : list A) (s : S)
  : option S :=
  match l with
  | [] => Some s
  | a :: l' => match f s a with
               | Some s' => forEach f l' s'
               | None => None
               end
  end.

(** ** The class UnifiedReactivitySystem *)

Module UnifiedReactivitySystem.

(** One entry of [this.parameters]. *)
Record parameter : Type := mkParam {
  value : number;
  base : number;
  reactive : number;
  smoothed : number
}.

#[global] Instance param_eq_dec : EqDecision parameter.
Proof. solve_decision. Defined.

Definition set_value (v : number) (p : parameter) : parameter :=
  mkParam v (base p) (reactive p) (smoothed p).
Definition set_base (v : number) (p : parameter) : parameter :=
  mkParam (value p) v (reactive p) (smoothed p).
Definition set_reactive (v : number) (p : parameter) : parameter :=
  mkParam (value p) (base p) v (smoothed p).
Definition set_smoothed (v : number) (p : parameter) : parameter :=
  mkParam (value p) (base p) (reactive p) v.

(** A parameter as the constructor writes it:
    [{ value: b, base: b, reactive: 0, smoothed: b }]. *)
Definition fresh (b : Q) : parameter := mkParam (num b) (num b) (num 0) (num b).
#[global] Arguments fresh b%_Q.

(** [this.parameters] as the constructor sets it. *)
Definition parameters : gmap string parameter :=
  list_to_map
    [ ("rot4dXW", fresh 0); ("rot4dYW", fresh 0); ("rot4dZW", fresh 0);
      ("rot4dXY", fresh 0); ("rot4dXZ", fresh 0); ("rot4dYZ", fresh 0);
      ("geometry", fresh 0); ("gridDensity", fresh 15);
      ("morphFactor", fresh 0.5); ("chaos", fresh 0.2);
      ("speed", fresh 1.0); ("scale", fresh 1.0);
      ("hue", fresh 200); ("intensity", fresh 0.9);
      ("saturation", fresh 0.6) ]%string.

(** One entry of [this.relationships]. *)
Record relationship : Type := mkRelationship {
  positive : list string;
  negative : list string;
  multipliers : gmap string number
}.

(** One [key: number] entry of an object literal. *)
Definition entry (k : string) (q : Q) : string * number := (k, num q).
#[global] Arguments entry k%_string q%_Q.

Definition table (l : list (string * number)) : gmap string number :=
  list_to_map l.

(** [this.relationships] as the constructor sets it. *)
Definition relationships : gmap string relationship :=
  list_to_map
    [ ("audioBass",
       mkRelationship
         ["rot4dXW"; "rot4dYW"; "scale"; "intensity"]
         ["gridDensity"; "saturation"; "speed"]
         (table [entry "rot4dXW" (2.0); entry "rot4dYW" (1.5); entry "scale" (0.5);
                 entry "intensity" (0.3); entry "gridDensity" (-0.3);
                 entry "saturation" (-0.2); entry "speed" (-0.2)]));
      ("audioMid",
       mkRelationship
         ["morphFactor"; "chaos"; "rot4dZW"; "rot4dXY"]
         ["gridDensity"]
         (table [entry "morphFactor" (1.0); entry "chaos" (0.8); entry "rot4dZW" (1.2);
                 entry "rot4dXY" (1.0); entry "gridDensity" (-0.2)]));
      ("audioHigh",
       mkRelationship
         ["hue"; "rot4dXZ"; "rot4dYZ"; "speed"]
         ["scale"; "morphFactor"]
         (table [entry "hue" (50); entry "rot4dXZ" (0.8); entry "rot4dYZ" (0.8);
                 entry "speed" (0.4); entry "scale" (-0.2); entry "morphFactor" (-0.3)]));
      ("touchVelocity",
       mkRelationship
         ["chaos"; "intensity"; "speed"]
         ["saturation"; "gridDensity"]
         (table [entry "chaos" (0.6); entry "intensity" (0.4); entry "speed" (0.3);
                 entry "saturation" (-0.3); entry "gridDensity" (-0.4)]));
      ("gyroscopeTilt",
       mkRelationship
         ["morphFactor"; "hue"; "scale"]
         ["speed"; "chaos"]
         (table [entry "morphFactor" (0.8); entry "hue" (30); entry "scale" (0.3);
                 entry "speed" (-0.2); entry "chaos" (-0.2)]));
      ("pinchGesture",
       mkRelationship
         ["scale"; "gridDensity"; "intensity"]
         ["chaos"; "speed"]
         (table [entry "scale" (1.0); entry "gridDensity" (0.5); entry "intensity" (0.3);
                 entry "chaos" (-0.4); entry "speed" (-0.3)]));
      ("beatDetected",
       mkRelationship
         ["intensity"; "chaos"; "speed"; "scale"]
         ["saturation"]
         (table [entry "intensity" (0.8); entry "chaos" (0.6); entry "speed" (0.5);
                 entry "scale" (0.4); entry "saturation" (-0.2)]));
      ("harmonicResonance",
       mkRelationship
         ["hue"; "saturation"; "intensity"]
         ["chaos"]
         (table [entry "hue" (20); entry "saturation" (0.3); entry "intensity" (0.2);
                 entry "chaos" (-0.3)])) ]%string.

(** [this.smoothingFactors] *)
Record factors : Type := mkFactors {
  rotations : number;
  core : number;
  color : number;
  advanced : number
}.

Definition smoothingFactors : factors :=
  mkFactors (num 0.15) (num 0.08) (num 0.12) (num 0.10).

(** *** applyRelationship *)

(** [this.parameters[param].reactive = f(this.parameters[param].reactive)];
    reading [.reactive] of a missing parameter throws. *)
Definition update_reactive (f : number -> number) (ps : gmap string parameter)
    (param : string) : option (gmap string parameter) :=
  match ps !! param with
  | Some p => Some (<[param := set_reactive (f (reactive p)) p]> ps)
  | None => None
  end.

(** The callback of [relationship.positive.forEach]. *)
Definition apply_positive (rel : relationship) (intensity : number)
    (ps : gmap string parameter) (param : string) : option (gmap string parameter) :=
  let multiplier := or_default (multipliers rel !! param) (num 1.0) in
  update_reactive (fun r => r + intensity * multiplier)%num ps param.

(** The callback of [relationship.negative.forEach]. *)
Definition apply_negative (rel : relationship) (intensity : number)
    (ps : gmap string parameter) (param : string) : option (gmap string parameter) :=
  let multiplier :=
    or_default (Some (Math_abs_value (multipliers rel !! param))) (num 1.0) in
  update_reactive (fun r => r - intensity * multiplier)%num ps param.

Definition applyRelationship (rels : gmap string relationship)
    (relationshipName : string) (intensity : number)
    (ps : gmap string parameter) : option (gmap string parameter) :=
  match rels !! relationshipName with
  | None => Some ps
  | Some rel =>
      match forEach (apply_positive rel intensity) (positive rel) ps with
      | Some ps' => forEach (apply_negative rel intensity) (negative rel) ps'
      | None => None
      end
  end.

(** *** Contributions of one frame

    Between the reset of the accumulators and the constraint pass,
    [processReactivity] changes [reactive] in two ways only: by a call
    [this.applyRelationship(name, intensity)] (audio bands, beat, touch
    velocity, pinch, gyroscope tilt), and by a guarded
    [if (this.parameters[p]) this.parameters[p].reactive += x] (the
    rotations copied from an input source, and the oscillation
    [Math.sin(phase) * cycle.amplitude] of a breathing cycle).  The
    samples, and the square roots and sines taken of them, are inputs of
    the model: a frame is the list of these calls in program order. *)
Inductive contribution : Type :=
  | Signal (relationshipName : string) (intensity : number)
  | Direct (param : string) (amount : number).

Definition add_reactive (ps : gmap string parameter) (param : string)
    (amount : number) : gmap string parameter :=
  match ps !! param with
  | Some p => <[param := set_reactive (reactive p + amount)%num p]> ps
  | None => ps
  end.

Definition contribute (rels : gmap string relationship)
    (ps : gmap string parameter) (c : contribution)
    : option (gmap string parameter) :=
  match c with
  | Signal relationshipName intensity =>
      applyRelationship rels relationshipName intensity ps
  | Direct param amount => Some (add_reactive ps param amount)
  end.

(** *** constrainParameter *)

Record constraint : Type := mkConstraint {
  min : number;
  max : number;
  wrap : bool
}.

Definition bounded (lo hi : Q) : constraint :=
  mkConstraint (num lo) (num hi) false.
#[global] Arguments bounded (lo hi)%_Q.

(** The table local to [constrainParameter]; [wrap] is [undefined],
    hence falsy, where the source leaves it out. *)
Definition constraints : gmap string constraint :=
  list_to_map
    [ ("geometry", bounded 0 9);
      ("gridDensity", bounded 1 64);
      ("morphFactor", bounded 0 2);
      ("chaos", bounded 0 1);
      ("speed", bounded 0.1 3);
      ("scale", bounded 0.25 3);
      ("hue", mkConstraint (num 0) (num 360) true);
      ("intensity", bounded 0 2);
      ("saturation", bounded 0 1) ]%string.

(** [while (value < constraint.min) value += (constraint.max - constraint.min);] *)
Fixpoint while_below (fuel : nat) (c : constraint) (value : number)
  : option number :=
  if (value <? min c)%num then
    match fuel with
    | O => None
    | S fuel' => while_below fuel' c (value + (max c - min c))%num
    end
  else Some value.

(** [while (value > constraint.max) value -= (constraint.max - constraint.min);] *)
Fixpoint while_above (fuel : nat) (c : constraint) (value : number)
  : option number :=
  if (value >? max c)%num then
    match fuel with
    | O => None
    | S fuel' => while_above fuel' c (value - (max c - min c))%num
    end
  else Some value.

Definition constrain (fuel : nat) (c : constraint) (value : number)
  : option number :=
  if wrap c then
    match while_below fuel c value with
    | Some value' => while_above fuel c value'
    | None => None
    end
  else Some (Math_max (min c) (Math_min (max c) value)).

Definition constrainParameter (fuel : nat) (param : string) (value : number)
  : option number :=
  match constraints !! param with
  | None => Some value
  | Some c => constrain fuel c value
  end.

(** *** applyParameterRelationships *)

(** The body of the [forEach]: combine, then constrain. *)
Definition combine (fuel : nat) (param : string) (p : parameter)
  : option parameter :=
  match constrainParameter fuel param (base p + reactive p)%num with
  | Some v => Some (set_value v p)
  | None => None
  end.

(** The pass over [Object.keys(this.parameters)]; it returns only when
    the loops of every parameter do. *)
Definition applyParameterRelationships (fuel : nat)
    (ps : gmap string parameter) : option (gmap string parameter) :=
  if decide (map_Forall (fun param p => is_Some (combine fuel param p)) ps)
  then Some (map_imap (combine fuel) ps)
  else None.

(** *** smoothParameters *)

Definition is_member (param : string) (l : list string) : bool :=
  bool_decide (param ∈ l).

(** The factor picked by the [if] chain on the parameter's name. *)
Definition smoothingFactor (facs : factors) (param : string) : number :=
  if String.prefix "rot4d" param then rotations facs
  else if is_member param ["hue"; "intensity"; "saturation"]%string
  then color facs
  else if is_member param ["geometry"; "gridDensity"; "morphFactor";
                           "chaos"; "speed"; "scale"]%string
  then core facs
  else advanced facs.

Definition smooth (facs : factors) (param : string) (p : parameter)
  : parameter :=
  set_smoothed
    (smoothed p + (value p - smoothed p) * smoothingFactor facs param)%num p.

Definition smoothParameters (facs : factors) (ps : gmap string parameter)
  : gmap string parameter :=
  map_imap (fun param p => Some (smooth facs param p)) ps.

(** *** processReactivity *)

(** [finalParameters], the object handed to [this.updateCallback]. *)
Definition finalParameters (ps : gmap string parameter)
  : gmap string number :=
  smoothed <$> ps.

(** One pass of the loop while the system is active: the new parameters,
    or [None] when a callback throws or a loop does not return within
    the fuel. *)
Definition processReactivity (fuel : nat) (rels : gmap string relationship)
    (facs : factors) (frame : list contribution)
    (ps : gmap string parameter) : option (gmap string parameter) :=
  let ps0 := set_reactive (num 0) <$> ps in
  match forEach (contribute rels) frame ps0 with
  | Some ps1 =>
      match applyParameterRelationships fuel ps1 with
      | Some ps2 => Some (smoothParameters facs ps2)
      | None => None
      end
  | None => None
  end.

(** *** Configuration *)

Definition setBaseParameter (param : string) (v : number)
    (ps : gmap string parameter) : gmap string parameter :=
  match ps !! param with
  | Some p => <[param := set_base v p]> ps
  | None => ps
  end.

(** [Object.assign(this.relationships[name].multipliers, multipliers)] *)
Definition configureRelationship (relationshipName : string)
    (ms : gmap string number) (rels : gmap string relationship)
    : gmap string relationship :=
  match rels !! relationshipName with
  | Some rel =>
      <[relationshipName :=
          mkRelationship (positive rel) (negative rel)
                         (ms ∪ multipliers rel)]> rels
  | None => rels
  end.

(** *** The life of a running system

    While the system is active, its parameters change by ticks of
    [processReactivity] and, in between, by calls of [setBaseParameter]. *)
Inductive event : Type :=
  | Tick (frame : list contribution)
  | SetBase (param : string) (v : number).

Definition step (fuel : nat) (rels : gmap string relationship)
    (facs : factors) (ps : gmap string parameter) (e : event)
  : option (gmap string parameter) :=
  match e with
  | Tick frame => processReactivity fuel rels facs frame ps
  | SetBase param v => Some (setBaseParameter param v ps)
  end.

Definition run (fuel : nat) (rels : gmap string relationship)
    (facs : factors) (events : list event) (ps : gmap string parameter)
  : option (gmap string parameter) :=
  forEach (step fuel rels facs) events ps.

End UnifiedReactivitySystem.

(** ** The class TouchGyroscope6D: momentum after release *)

Module TouchGyroscope6D.

(** The numeric fields of one entry of [this.rotationEffects]; the
    display strings ([name], [description], [visualEffect], [mapping])
    play no part in the computation. *)
Record effect : Type := mkEffect {
  sensitivity : number;
  dampening : number
}.

Definition axis_effect (s d : Q) : effect := mkEffect (num s) (num d).
#[global] Arguments axis_effect (s d)%_Q.

(** [this.rotationEffects] as the constructor sets it. *)
Definition rotationEffects : gmap string effect :=
  list_to_map
    [ ("rot4dXW", axis_effect 2.0 0.95);
      ("rot4dYW", axis_effect 1.8 0.93);
      ("rot4dZW", axis_effect 1.5 0.97);
      ("rot4dXY", axis_effect 1.2 0.98);
      ("rot4dXZ", axis_effect 1.0 0.96);
      ("rot4dYZ", axis_effect 2.5 0.90) ]%string.

(** [setDampening(axis, dampening)] *)
Definition setDampening (axis : string) (d : number)
    (effects : gmap string effect) : gmap string effect :=
  match effects !! axis with
  | Some e => <[axis := mkEffect (sensitivity e) d]> effects
  | None => effects
  end.

(** [this.rotations]: the axes in the order of the object literal, which
    is the order of [Object.keys] and [Object.values]. *)
Definition rotations_of (xw yw zw xy xz yz : number)
  : list (string * number) :=
  [ ("rot4dXW", xw); ("rot4dYW", yw); ("rot4dZW", zw);
    ("rot4dXY", xy); ("rot4dXZ", xz); ("rot4dYZ", yz) ]%string.

Definition rotations : list (string * number) :=
  rotations_of (num 0) (num 0) (num 0) (num 0) (num 0) (num 0).

(** [this.rotations[axis] *= this.rotationEffects[axis].dampening];
    an axis without an entry in [rotationEffects] throws. *)
Definition dampen (effects : gmap string effect) (rot : string * number)
  : option (string * number) :=
  match effects !! rot.1 with
  | Some e => Some (rot.1, (rot.2 * dampening e)%num)
  | None => None
  end.

(** [Object.values(this.rotations).reduce((sum, val) => sum + Math.abs(val), 0)] *)
Definition totalRotation (rots : list (string * number)) : number :=
  foldl (fun sum val => (sum + Math_abs val)%num) (num 0) rots.*2.

Definition epsilon : number := num 0.001.

(** The closure [dampening] run once per animation frame: [fuel] bounds
    the number of frames.  The result lists [this.rotations] as each
    frame leaves it; the last entry is the state in which the loop stops
    rescheduling itself. *)
Fixpoint applyTouchMomentum (fuel : nat) (effects : gmap string effect)
    (isActive : bool) (rots : list (string * number))
  : option (list (list (string * number))) :=
  match fuel with
  | O => None
  | S fuel' =>
      match mapM (dampen effects) rots with
      | None => None
      | Some rots' =>
          if (totalRotation rots' >? epsilon)%num && isActive then
            match applyTouchMomentum fuel' effects isActive rots' with
            | Some frames => Some (rots' :: frames)
            | None => None
            end
          else Some [rots']
      end
  end.

End TouchGyroscope6D.

(** ** Vocabulary of the statements *)

Module Statements.
Import UnifiedReactivitySystem.

(** [ps[param].reactive], and likewise for the other fields. *)
Definition reactive_of (ps : gmap string parameter) (param : string)
  : option number := reactive <$> (ps !! param).
Definition value_of (ps : gmap string parameter) (param : string)
  : option number := value <$> (ps !! param).
Definition base_of (ps : gmap string parameter) (param : string)
  : option number := base <$> (ps !! param).
Definition smoothed_of (ps : gmap string parameter) (param : string)
  : option number := smoothed <$> (ps !! param).

(** [rels[name].multipliers[param]] *)
Definition multiplier_of (rels : gmap string relationship)
    (relationshipName param : string) : option number :=
  match rels !! relationshipName with
  | Some rel => multipliers rel !! param
  | None => None
  end.

(** The accumulator changes that [applyRelationship] makes for one
    relationship, in program order: [(param, d)] stands for
    [parameters[param].reactive += d], and a subtraction is the addition
    of the opposite. *)
Definition deltas (rel : relationship) (intensity : number)
  : list (string * number) :=
  ((fun param =>
      (param,
       (intensity * or_default (multipliers rel !! param) (num 1.0))%num))
     <$> positive rel)
  ++ ((fun param =>
         (param,
          neg (intensity
               * or_default
                   (Some (Math_abs_value (multipliers rel !! param)))
                   (num 1.0))%num))
        <$> negative rel).

(** The changes made by [applyRelationship(name, intensity)]: none when
    the table has no such name. *)
Definition deltas_of (rels : gmap string relationship)
    (relationshipName : string) (intensity : number)
  : list (string * number) :=
  match rels !! relationshipName with
  | Some rel => deltas rel intensity
  | None => []
  end.

Definition bump (ps : gmap string parameter) (d : string * number)
  : option (gmap string parameter) :=
  update_reactive (fun r => r + d.2)%num ps d.1.

(** The accumulator of [param] after the changes [ds], starting from
    [r]. *)
Definition accumulate (param : string) (ds : list (string * number))
    (r : number) : number :=
  foldl (fun r d => if decide (d.1 = param) then (r + d.2)%num else r) r ds.

(** The store [ps'] is the store [ps] after the accumulator changes
    [ds]. *)
Definition accumulated (ds : list (string * number))
    (ps ps' : gmap string parameter) : Prop :=
  forall k,
    ps' !! k
    = (fun p => set_reactive (accumulate k ds (reactive p)) p) <$> ps !! k.

(** An integer as a finite number. *)
Definition Qc_of_Z (k : Z) : Qc := Q2Qc (inject_Z k).

(** [v] is a finite number inside the closed range of [c]. *)
Definition within (c : constraint) (v : number) : Prop :=
  exists lo hi x,
    min c = Fin lo /\ max c = Fin hi /\ v = Fin x /\ lo <= x /\ x <= hi.

(** [v] is [raw] moved by a whole number of range widths. *)
Definition congruent (c : constraint) (raw v : number) : Prop :=
  exists lo hi x y (k : Z),
    min c = Fin lo /\ max c = Fin hi /\ raw = Fin x /\ v = Fin y /\
    y = x + Qc_of_Z k * (hi - lo).

(** The range as the specification words it: closed for a bounded
    parameter, half-open for a wrap parameter. *)
Definition within_half_open (c : constraint) (v : number) : Prop :=
  exists lo hi x,
    min c = Fin lo /\ max c = Fin hi /\ v = Fin x /\ lo <= x /\
    if wrap c then x < hi else x <= hi.

(** Both bounds of a constraint are finite and the range is not empty. *)
Definition well_formed (c : constraint) : bool :=
  match min c, max c with
  | Fin lo, Fin hi => Qcltb lo hi
  | _, _ => false
  end.

(** What [constrainParameter] makes of a raw value: it is left alone
    where the table has no entry; it is clamped by a bounded constraint
    (and kept when already in range); it is moved by whole widths into
    the closed range by a wrap constraint. *)
Definition constrained (param : string) (raw v : number) : Prop :=
  match constraints !! param with
  | None => v = raw
  | Some c =>
      within c v /\
      if wrap c then congruent c raw v else (within c raw -> v = raw)
  end.

(** Every number that enters with a contribution or an event is finite. *)
Definition finite_contribution (c : contribution) : Prop :=
  match c with
  | Signal _ intensity => is_finite intensity
  | Direct _ amount => is_finite amount
  end.

#[global] Instance finite_contribution_dec (c : contribution)
  : Decision (finite_contribution c).
Proof. destruct c; apply _. Defined.

Definition finite_event (e : event) : Prop :=
  match e with
  | Tick frame => Forall finite_contribution frame
  | SetBase _ v => is_finite v
  end.

#[global] Instance finite_event_dec (e : event) : Decision (finite_event e).
Proof. destruct e; apply _. Defined.

(** The multipliers of a relationship table are finite numbers. *)
Definition finite_multipliers (rels : gmap string relationship) : Prop :=
  map_Forall
    (fun _ rel => map_Forall (fun _ m => is_finite m) (multipliers rel)) rels.

(** The targets of a relationship table are parameters of a store. *)
Definition targets_in (rels : gmap string relationship)
    (ps : gmap string parameter) : Prop :=
  map_Forall
    (fun _ rel =>
       Forall (fun param => is_Some (ps !! param))
              (positive rel ++ negative rel)) rels.

(** The invariant of the hue parameter: the store has the keys of the
    constructor's, its bases are finite, and the smoothed value of hue is
    a finite number in [0, 360). *)
Definition hue_invariant (ps : gmap string parameter) : Prop :=
  (forall k, is_Some (ps !! k) <-> is_Some (parameters !! k)) /\
  (forall k p, ps !! k = Some p -> is_finite (base p)) /\
  exists p s,
    ps !! "hue"%string = Some p /\ smoothed p = Fin s /\
    0 <= s /\ s < Q2Qc 360.

Definition finite_inputs (ps : gmap string parameter) : Prop :=
  forall param p,
    ps !! param = Some p -> is_finite (base p) /\ is_finite (reactive p).

(** The order of the smoothing factors as the specification words it:
    no category is slower than the rotations, and the colours are faster
    than the rotations. *)
Definition rotations_slowest_color_faster (facs : factors) : Prop :=
  (core facs <? rotations facs)%num = false /\
  (color facs <? rotations facs)%num = false /\
  (advanced facs <? rotations facs)%num = false /\
  (rotations facs <? color facs)%num = true.

(** The smoothed value that the specification asks for when the combined
    value of a parameter is NaN: the parameter's base. *)
Definition reset_to_base (p p' : parameter) : Prop :=
  smoothed p' = base p.

(** *** Momentum *)

(** The magnitude of a rotation, and the sum over the axes. *)
Definition magnitude (x : number) : Qc :=
  match x with
  | Fin q => Qcabs q
  | _ => 0
  end.

Definition magnitude_sum (rots : list (string * number)) : Qc :=
  foldr (fun rot acc => magnitude rot.2 + acc) 0 rots.

(** The axis holds a finite rotation and has a dampening factor [d] with
    [0 < d <= D]. *)
Definition damped_by (effects : gmap string TouchGyroscope6D.effect)
    (D : Qc) (rot : string * number) : Prop :=
  exists q e d,
    rot.2 = Fin q /\ effects !! rot.1 = Some e /\
    TouchGyroscope6D.dampening e = Fin d /\ 0 < d /\ d <= D.

(** The axis holds a finite rotation and has a dampening factor in (0,1). *)
Definition damped (effects : gmap string TouchGyroscope6D.effect)
    (rot : string * number) : Prop :=
  exists q e d,
    rot.2 = Fin q /\ effects !! rot.1 = Some e /\
    TouchGyroscope6D.dampening e = Fin d /\ 0 < d /\ d < 1.

(** One frame on one axis: zero stays zero, and a rotation that is not
    zero gets strictly smaller in magnitude without becoming zero. *)
Definition decays (rot rot' : string * number) : Prop :=
  rot'.1 = rot.1 /\
  exists q q',
    rot.2 = Fin q /\ rot'.2 = Fin q' /\
    (q = 0 -> q' = 0) /\
    (q <> 0 -> q' <> 0 /\ Qcabs q' < Qcabs q).

(** Every frame decays every axis of the frame before it. *)
Fixpoint decay_chain (rots : list (string * number))
    (frames : list (list (string * number))) : Prop :=
  match frames with
  | [] => True
  | rots' :: frames' => Forall2 decays rots rots' /\ decay_chain rots' frames'
  end.

(** The total is above the threshold after every frame but the last, and
    at or below it after the last. *)
Fixpoint stops_at_last (frames : list (list (string * number))) : Prop :=
  match frames with
  | [] => False
  | rots :: frames' =>
      match frames' with
      | [] => (TouchGyroscope6D.totalRotation rots
               >? TouchGyroscope6D.epsilon)%num = false
      | _ => (TouchGyroscope6D.totalRotation rots
              >? TouchGyroscope6D.epsilon)%num = true /\
             stops_at_last frames'
      end
  end.

(** A rotation that was not zero is not zero. *)
Definition keeps_nonzero (rot rot' : string * number) : Prop :=
  exists q q', rot.2 = Fin q /\ rot'.2 = Fin q' /\ (q <> 0 -> q' <> 0).

(** *** One tick, parameter by parameter *)

(** The accumulator changes of one contribution and of a whole frame, in
    program order. *)
Definition contribution_deltas (rels : gmap string relationship)
    (c : contribution) : list (string * number) :=
  match c with
  | Signal relationshipName intensity =>
      deltas_of rels relationshipName intensity
  | Direct param amount => [(param, amount)]
  end.

Definition frame_deltas (rels : gmap string relationship)
    (frame : list contribution) : list (string * number) :=
  foldr (fun c ds => contribution_deltas rels c ++ ds) [] frame.

(** What one tick makes of one parameter: the accumulator restarts from
    zero and receives the frame's changes, the value is the constrained
    sum of base and accumulator, and smoothed moves towards the value. *)
Definition tick_parameter (fuel : nat) (rels : gmap string relationship)
    (facs : factors) (frame : list contribution) (param : string)
    (q : parameter) : option parameter :=
  let r := accumulate param (frame_deltas rels frame) (num 0) in
  match constrainParameter fuel param (base q + r)%num with
  | Some v =>
      Some (mkParam v (base q) r
              (smoothed q + (v - smoothed q) * smoothingFactor facs param)%num)
  | None => None
  end.

(** The store has the keys of the constructor's [this.parameters]. *)
Definition registered (ps : gmap string parameter) : Prop :=
  forall k, is_Some (parameters !! k) -> is_Some (ps !! k).

Definition finite_bases (ps : gmap string parameter) : Prop :=
  forall k p, ps !! k = Some p -> is_finite (base p).

(** Every smoothed value is finite, and that of a constrained parameter
    lies in the closed range of its constraint. *)
Definition smoothed_in_range (ps : gmap string parameter) : Prop :=
  forall k p,
    ps !! k = Some p ->
    exists s,
      smoothed p = Fin s /\
      forall c, constraints !! k = Some c ->
                exists lo hi,
                  min c = Fin lo /\ max c = Fin hi /\ lo <= s /\ s <= hi.

(** [n] ticks without any contribution: no input source, breathing
    disabled. *)
Definition idle (n : nat) : list event := replicate n (Tick []).

(** The executable form of [smoothed_in_range] for one parameter. *)
Definition smoothed_ok (k : string) (p : parameter) : bool :=
  match smoothed p with
  | Fin s =>
      match constraints !! k with
      | Some c =>
          match min c, max c with
          | Fin lo, Fin hi => negb (Qcltb s lo) && negb (Qcltb hi s)
          | _, _ => false
          end
      | None => true
      end
  | _ => false
  end.

(** Every factor of the table is a finite number of [0, 1]. *)
Definition factors_in_unit (facs : factors) : Prop :=
  forall param,
    exists f, smoothingFactor facs param = Fin f /\ 0 <= f /\ f <= 1.

End Statements.

(** ** Concrete states used by the examples *)

Module Examples.
Import UnifiedReactivitySystem.

(** The constructor's parameters, with [hue.reactive = 160] as
    [applyRelationship('audioHigh', 3.2)] leaves it. *)
Definition hue_plus_160 : gmap string parameter :=
  <["hue" := mkParam (num 200) (num 200) (num 160) (num 200)]> parameters.

(** The constructor's parameters, with [hue.reactive = -925]. *)
Definition hue_minus_925 : gmap string parameter :=
  <["hue" := mkParam (num 200) (num 200) (num (-925)) (num 200)]> parameters.

(** [configureRelationship('audioHigh', { hue: 0, scale: 0 })] *)
Definition audioHigh_muted : gmap string relationship :=
  configureRelationship "audioHigh"
    (table [entry "hue" 0; entry "scale" 0]) relationships.

(** A frame in which the touch source reports no velocity: the intensity
    handed to [applyRelationship] is NaN. *)
Definition frame_with_NaN : list contribution :=
  [Signal "audioHigh" (num 1.0); Signal "touchVelocity" NaN].

(** [applyRelationship('audioHigh', 1)] and
    [applyRelationship('gyroscopeTilt', 0.5)], each alone on the
    constructor's parameters. *)
Definition after_audioHigh : gmap string parameter :=
  default ∅ (applyRelationship relationships "audioHigh" (num 1) parameters).
Definition after_gyroscopeTilt : gmap string parameter :=
  default ∅
    (applyRelationship relationships "gyroscopeTilt" (num 0.5) parameters).

(** The constructor's parameters, with the accumulator of chaos at NaN,
    as [applyRelationship('touchVelocity', NaN)] leaves it. *)
Definition chaos_NaN : gmap string parameter :=
  <["chaos" := mkParam (num 0.2) (num 0.2) NaN (num 0.2)]> parameters.

(** A history with swings of hue far outside its range. *)
Definition wild_history : list event :=
  [ Tick [Signal "audioHigh" (num 1000000); Direct "hue" (num (-0.5))];
    SetBase "hue" (num (-123456.75));
    Tick [Signal "gyroscopeTilt" (num 7.2); Signal "nonesuch" (num 1)];
    Tick [Direct "hue" (num 987654321)] ].

(** [this.rotations] at release, with a single axis turned by 0.002. *)
Definition one_axis : list (string * number) :=
  TouchGyroscope6D.rotations_of
    (num 0.002) (num 0) (num 0) (num 0) (num 0) (num 0).

(** [this.rotations] at release after a drag and a pinch. *)
Definition after_drag : list (string * number) :=
  TouchGyroscope6D.rotations_of
    (num 1.5) (num (-2.25)) (num 0) (num 0) (num 0) (num 0.4).

(** Scenario A: one frame whose only contribution is
    [applyRelationship('audioHigh', 1.0)]. *)
Definition frame_A : list contribution := [Signal "audioHigh" (num 1.0)].

(** The constructor's parameters after the tick of scenario A. *)
Definition after_frame_A : gmap string parameter :=
  default ∅
    (processReactivity 0 relationships smoothingFactors frame_A parameters).

(** The constructor's parameters without hue. *)
Definition without_hue : gmap string parameter := delete "hue" parameters.

(** A relationship whose inverse target has a positive, a zero and no
    multiplier. *)
Definition inverse_demo : gmap string relationship :=
  {[ "demo" :=
       mkRelationship ["scale"] ["chaos"; "speed"; "hue"]
         (table [entry "scale" 1.0; entry "chaos" 0.4; entry "speed" 0]) ]}.

(** The entry [audioHigh] of the constructor's relationships. *)
Definition audioHigh_rel : relationship :=
  mkRelationship
    ["hue"; "rot4dXZ"; "rot4dYZ"; "speed"] ["scale"; "morphFactor"]
    (table [entry "hue" 50; entry "rot4dXZ" 0.8; entry "rot4dYZ" 0.8;
            entry "speed" 0.4; entry "scale" (-0.2);
            entry "morphFactor" (-0.3)]).

(** [applyRelationship('audioBass', 0)] on [hue_plus_160]. *)
Definition after_zero_bass : gmap string parameter :=
  default ∅ (applyRelationship relationships "audioBass" (num 0) hue_plus_160).

(** The relationship of [inverse_demo], and the constructor's parameters
    after [applyRelationship('demo', 2)]. *)
Definition demo_rel : relationship :=
  mkRelationship ["scale"] ["chaos"; "speed"; "hue"]
    (table [entry "scale" 1.0; entry "chaos" 0.4; entry "speed" 0]).

Definition after_demo : gmap string parameter :=
  default ∅ (applyRelationship inverse_demo "demo" (num 2) parameters).

End Examples.

Import UnifiedReactivitySystem Statements Examples.

(** * Properties *)

(** ** Exact arithmetic on finite numbers *)

Section QcArith.

Lemma this_plus (a b : Qc) : (this (a + b) == this a + this b)%Q.
Proof. apply Qred_correct. Qed.

Lemma this_mult (a b : Qc) : (this (a * b) == this a * this b)%Q.
Proof. apply Qred_correct. Qed.

Lemma this_opp (a : Qc) : (this (- a) == - this a)%Q.
Proof. apply Qred_correct. Qed.

Lemma this_minus (a b : Qc) : (this (a - b) == this a - this b)%Q.
Proof. unfold Qcminus. rewrite this_plus, this_opp. reflexivity. Qed.

Lemma this_Q2Qc (q : Q) : (this (Q2Qc q) == q)%Q.
Proof. apply Qred_correct. Qed.

End QcArith.

(** Moves a goal on [Qc] to [Q], where [lra] and [nra] decide it. *)
Ltac qc_arith :=
  intros;
  repeat match goal with
  | H : @eq Qc ?a ?b |- _ =>
      let H' := fresh in
      assert (H' : (this a == this b)%Q) by (rewrite H; reflexivity); clear H
  | H : ?a <> ?b :> Qc |- _ =>
      let H' := fresh in
      assert (H' : ~ (this a == this b)%Q)
        by (intros ?; apply H; apply Qc_is_canon; assumption);
      clear H
  | |- @eq Qc _ _ => apply Qc_is_canon
  | |- _ <> _ :> Qc => let E := fresh in intros E
  end;
  unfold Qcle, Qclt in *;
  repeat (progress (rewrite ?this_minus, ?this_plus, ?this_mult, ?this_opp,
                      ?this_Q2Qc in *));
  change (this 0) with 0%Q in *; change (this 1) with 1%Q in *.

Section Comparison.

Lemma Qcltb_lt (a b : Qc) : Qcltb a b = true <-> a < b.
Proof.
  unfold Qcltb. rewrite Qclt_alt. destruct (a ?= b); intuition congruence.
Qed.

Lemma Qcltb_ge (a b : Qc) : Qcltb a b = false <-> b <= a.
Proof.
  rewrite <- not_true_iff_false, Qcltb_lt. split.
  - apply Qcnot_lt_le.
  - apply Qcle_not_lt.
Qed.

Lemma lt_Fin (a b : Qc) : (Fin a <? Fin b)%num = Qcltb a b.
Proof. reflexivity. Qed.

Lemma gt_Fin (a b : Qc) : (Fin a >? Fin b)%num = Qcltb b a.
Proof. reflexivity. Qed.

Lemma Qcabs_nonneg (a : Qc) : 0 <= Qcabs a.
Proof.
  unfold Qcabs. destruct (Qcltb a 0) eqn:E.
  - apply Qcltb_lt in E. qc_arith. lra.
  - apply Qcltb_ge in E. exact E.
Qed.

Lemma Qcabs_pos (a : Qc) : a <> 0 -> 0 < Qcabs a.
Proof.
  intros Ha. unfold Qcabs. destruct (Qcltb a 0) eqn:E.
  - apply Qcltb_lt in E. qc_arith. lra.
  - apply Qcltb_ge in E. qc_arith. lra.
Qed.

Lemma Qcabs_mult_pos (a d : Qc) : 0 <= d -> Qcabs (a * d) = Qcabs a * d.
Proof.
  intros Hd. unfold Qcabs.
  destruct (Qcltb (a * d) 0) eqn:E1; destruct (Qcltb a 0) eqn:E2;
    rewrite ?Qcltb_lt, ?Qcltb_ge in *; qc_arith; nra.
Qed.

End Comparison.

(** ** The constraint policy *)

Section Fuel.

Lemma while_below_eq (fuel : nat) (c : constraint) (v : number) :
  while_below fuel c v =
  if (v <? min c)%num then
    match fuel with
    | O => None
    | S fuel' => while_below fuel' c (v + (max c - min c))%num
    end
  else Some v.
Proof. destruct fuel; reflexivity. Qed.

Lemma while_above_eq (fuel : nat) (c : constraint) (v : number) :
  while_above fuel c v =
  if (v >? max c)%num then
    match fuel with
    | O => None
    | S fuel' => while_above fuel' c (v - (max c - min c))%num
    end
  else Some v.
Proof. destruct fuel; reflexivity. Qed.

Lemma while_below_mono (c : constraint) (n m : nat) (v r : number) :
  while_below n c v = Some r -> (n <= m)%nat -> while_below m c v = Some r.
Proof.
  revert m v. induction n as [|n IH]; intros m v H Hle; simpl in H.
  - destruct m; simpl; destruct (v <? min c)%num; congruence.
  - destruct m as [|m]; [lia|]. simpl.
    destruct (v <? min c)%num; [|exact H].
    apply IH; [exact H | lia].
Qed.

Lemma while_above_mono (c : constraint) (n m : nat) (v r : number) :
  while_above n c v = Some r -> (n <= m)%nat -> while_above m c v = Some r.
Proof.
  revert m v. induction n as [|n IH]; intros m v H Hle; simpl in H.
  - destruct m; simpl; destruct (v >? max c)%num; congruence.
  - destruct m as [|m]; [lia|]. simpl.
    destruct (v >? max c)%num; [|exact H].
    apply IH; [exact H | lia].
Qed.

Lemma constrain_mono (c : constraint) (n m : nat) (v r : number) :
  constrain n c v = Some r -> (n <= m)%nat -> constrain m c v = Some r.
Proof.
  unfold constrain. destruct (wrap c); [|auto].
  destruct (while_below n c v) as [v'|] eqn:E; [|discriminate].
  intros H Hle. rewrite (while_below_mono _ _ _ _ _ E Hle).
  eapply while_above_mono; eauto.
Qed.

Lemma constrainParameter_mono (param : string) (n m : nat) (v r : number) :
  constrainParameter n param v = Some r -> (n <= m)%nat ->
  constrainParameter m param v = Some r.
Proof.
  unfold constrainParameter. destruct (constraints !! param); [|auto].
  apply constrain_mono.
Qed.

Lemma combine_mono (param : string) (n m : nat) (p p' : parameter) :
  combine n param p = Some p' -> (n <= m)%nat -> combine m param p = Some p'.
Proof.
  unfold combine.
  destruct (constrainParameter n param _) as [v|] eqn:E; [|discriminate].
  intros H Hle. by rewrite (constrainParameter_mono _ _ _ _ _ E Hle).
Qed.

End Fuel.

Section Wrap.

Variables (c : constraint) (lo hi : Qc).
Hypothesis Hmin : min c = Fin lo.
Hypothesis Hmax : max c = Fin hi.
Hypothesis Hrange : lo < hi.

Lemma Qc_of_Z_succ (n : nat) :
  Qc_of_Z (Z.of_nat (S n)) = Qc_of_Z (Z.of_nat n) + 1.
Proof.
  unfold Qc_of_Z. qc_arith.
  rewrite Nat2Z.inj_succ. unfold Z.succ. rewrite inject_Z_plus. reflexivity.
Qed.

Lemma width_Fin : (max c - min c)%num = Fin (hi - lo).
Proof. rewrite Hmin, Hmax. reflexivity. Qed.

(** The first loop returns once enough widths have been added. *)
Lemma while_below_finite (n : nat) :
  forall v : Qc,
    lo <= v + Qc_of_Z (Z.of_nat n) * (hi - lo) ->
    exists (r : Qc) (k : nat),
      while_below n c (Fin v) = Some (Fin r) /\
      r = v + Qc_of_Z (Z.of_nat k) * (hi - lo) /\
      lo <= r /\ (v < lo -> r < hi) /\ (lo <= v -> r = v).
Proof.
  induction n as [|n IH]; intros v Hv.
  - exists v, 0%nat. rewrite while_below_eq, Hmin, lt_Fin.
    assert (Hge : lo <= v).
    { change (Qc_of_Z (Z.of_nat 0)) with 0 in Hv. revert Hv. qc_arith. lra. }
    apply Qcltb_ge in Hge as Hb. rewrite Hb.
    repeat split; auto.
    + change (Qc_of_Z (Z.of_nat 0)) with 0. qc_arith. lra.
    + intros. exfalso. revert Hge H. qc_arith. lra.
  - rewrite while_below_eq, width_Fin, Hmin, lt_Fin.
    destruct (Qcltb v lo) eqn:Hb.
    + apply Qcltb_lt in Hb. cbn [add].
      destruct (IH (v + (hi - lo))) as (r & k & Hr & Hk & Hlo & Hup & Hid).
      { rewrite Qc_of_Z_succ in Hv. revert Hv. qc_arith. lra. }
      exists r, (S k). repeat split; auto.
      * rewrite Qc_of_Z_succ, Hk. ring.
      * intros _. destruct (Qclt_le_dec (v + (hi - lo)) lo) as [H1|H1].
        -- auto.
        -- rewrite (Hid H1). revert Hb. qc_arith. lra.
      * intros H. exfalso. revert H Hb. qc_arith. lra.
    + apply Qcltb_ge in Hb. exists v, 0%nat. repeat split; auto.
      * change (Qc_of_Z (Z.of_nat 0)) with 0. qc_arith. lra.
      * intros H. exfalso. revert H Hb. qc_arith. lra.
Qed.

(** The second loop returns once enough widths have been taken off. *)
Lemma while_above_finite (n : nat) :
  forall v : Qc,
    v - Qc_of_Z (Z.of_nat n) * (hi - lo) <= hi ->
    exists (r : Qc) (k : nat),
      while_above n c (Fin v) = Some (Fin r) /\
      r = v - Qc_of_Z (Z.of_nat k) * (hi - lo) /\
      r <= hi /\ (hi < v -> lo < r) /\ (v <= hi -> r = v).
Proof.
  induction n as [|n IH]; intros v Hv.
  - exists v, 0%nat. rewrite while_above_eq, Hmax, gt_Fin.
    assert (Hle : v <= hi).
    { change (Qc_of_Z (Z.of_nat 0)) with 0 in Hv. revert Hv. qc_arith. lra. }
    apply Qcltb_ge in Hle as Hb. rewrite Hb.
    repeat split; auto.
    + change (Qc_of_Z (Z.of_nat 0)) with 0. qc_arith. lra.
    + intros. exfalso. revert Hle H. qc_arith. lra.
  - rewrite while_above_eq, width_Fin, Hmax, gt_Fin.
    destruct (Qcltb hi v) eqn:Hb.
    + apply Qcltb_lt in Hb. cbn [sub add neg].
      destruct (IH (v + - (hi - lo))) as (r & k & Hr & Hk & Hhi & Hdn & Hid).
      { rewrite Qc_of_Z_succ in Hv. revert Hv. qc_arith. lra. }
      exists r, (S k). repeat split; auto.
      * rewrite Qc_of_Z_succ, Hk. ring.
      * intros _. destruct (Qclt_le_dec hi (v + - (hi - lo))) as [H1|H1].
        -- auto.
        -- rewrite (Hid H1). revert Hb. qc_arith. lra.
      * intros H. exfalso. revert H Hb. qc_arith. lra.
    + apply Qcltb_ge in Hb. exists v, 0%nat. repeat split; auto.
      * change (Qc_of_Z (Z.of_nat 0)) with 0. qc_arith. lra.
      * intros H. exfalso. revert H Hb. qc_arith. lra.
Qed.

End Wrap.

Section Archimedes.

(** Enough copies of a positive width exceed any number. *)
Lemma archimedean (x w : Qc) :
  0 < w -> exists n : nat, x <= Qc_of_Z (Z.of_nat n) * w.
Proof.
  intros Hw. destruct (Qarchimedean (this x / this w)) as [p Hp].
  exists (Pos.to_nat p). unfold Qc_of_Z. qc_arith.
  rewrite positive_nat_Z.
  change (inject_Z (Z.pos p)) with (Z.pos p # 1)%Q.
  set (q := (this x / this w)%Q) in *.
  assert (Hx : (this x == q * this w)%Q) by (unfold q; field; lra).
  rewrite Hx. nra.
Qed.

Lemma Qc_of_Z_mono (n m : nat) :
  (n <= m)%nat -> Qc_of_Z (Z.of_nat n) <= Qc_of_Z (Z.of_nat m).
Proof.
  intros H. unfold Qc_of_Z. qc_arith. rewrite <- Zle_Qle. lia.
Qed.

End Archimedes.

Section Constrain.

Variables (c : constraint) (lo hi : Qc).
Hypothesis Hmin : min c = Fin lo.
Hypothesis Hmax : max c = Fin hi.
Hypothesis Hrange : lo < hi.

(** On a finite value the two loops of a wrap constraint return, and the
    result is the value moved by whole widths into the closed range. *)
Lemma constrain_wrap_finite (v : Qc) :
  wrap c = true ->
  exists (n : nat) (r : Qc) (k : Z),
    (forall m, (n <= m)%nat -> constrain m c (Fin v) = Some (Fin r)) /\
    lo <= r /\ r <= hi /\ r = v + Qc_of_Z k * (hi - lo).
Proof.
  intros Hw.
  assert (Hpos : 0 < hi - lo) by (revert Hrange; qc_arith; lra).
  destruct (archimedean (lo - v) (hi - lo) Hpos) as [n1 Hn1].
  destruct (while_below_finite c lo hi Hmin Hmax n1 v)
    as (r1 & k1 & Hr1 & Hk1 & Hlo1 & Hup1 & Hid1).
  { revert Hn1. qc_arith. lra. }
  destruct (archimedean (r1 - hi) (hi - lo) Hpos) as [n2 Hn2].
  destruct (while_above_finite c lo hi Hmin Hmax n2 r1)
    as (r2 & k2 & Hr2 & Hk2 & Hhi2 & Hdn2 & Hid2).
  { revert Hn2. qc_arith. lra. }
  exists (n1 `max` n2)%nat, r2, (Z.of_nat k1 - Z.of_nat k2)%Z.
  split; [|split; [|split]].
  - intros m Hm. unfold constrain. rewrite Hw.
    rewrite (while_below_mono _ _ m _ _ Hr1) by lia.
    apply (while_above_mono _ _ m _ _ Hr2). lia.
  - destruct (Qclt_le_dec hi r1) as [H|H].
    + apply Qclt_le_weak. auto.
    + rewrite (Hid2 H). exact Hlo1.
  - exact Hhi2.
  - rewrite Hk2, Hk1. unfold Qc_of_Z. qc_arith.
    unfold Zminus. rewrite inject_Z_plus, inject_Z_opp. ring.
Qed.

Local Ltac clamp_done :=
  repeat split; auto using Qcle_refl, Qclt_le_weak; try discriminate;
  try (let y := fresh in
       let Hy := fresh in
       intros y Hy ? ?; injection Hy as <-;
       first [ reflexivity
             | apply Qcle_antisym; eauto using Qcle_trans, Qclt_le_weak ]).

(** A bounded constraint clamps: no loop is entered, and every value but
    NaN lands in the closed range. *)
Lemma constrain_clamp (fuel : nat) (v : number) :
  wrap c = false -> v <> NaN ->
  exists r : Qc,
    constrain fuel c v = Some (Fin r) /\ lo <= r /\ r <= hi /\
    (forall x, v = Fin x -> lo <= x -> x <= hi -> r = x).
Proof.
  intros Hw Hv. unfold constrain. rewrite Hw, Hmin, Hmax.
  assert (Hle : lo <= hi) by (apply Qclt_le_weak; exact Hrange).
  destruct v as [| | |x]; [congruence| | |]; cbn.
  - destruct (Qcltb lo hi) eqn:E; [exists hi | exists lo]; clamp_done.
  - exists lo; clamp_done.
  - destruct (Qcltb x hi) eqn:E1; cbn.
    + apply Qcltb_lt in E1. destruct (Qcltb lo x) eqn:E2.
      * apply Qcltb_lt in E2. exists x; clamp_done.
      * apply Qcltb_ge in E2. exists lo; clamp_done.
    + apply Qcltb_ge in E1. destruct (Qcltb lo hi) eqn:E2.
      * exists hi; clamp_done.
      * apply Qcltb_ge in E2. exists lo; clamp_done.
Qed.

(** NaN passes through both policies untouched. *)
Lemma constrain_NaN (fuel : nat) : constrain fuel c NaN = Some NaN.
Proof.
  unfold constrain. destruct (wrap c).
  - rewrite while_below_eq. cbn. rewrite while_above_eq, Hmax. reflexivity.
  - rewrite Hmin, Hmax. reflexivity.
Qed.

(** From -Infinity the first loop never leaves: adding a finite width
    to -Infinity gives -Infinity again. *)
Lemma while_below_NegInf (fuel : nat) : while_below fuel c NegInf = None.
Proof.
  induction fuel as [|fuel IH]; rewrite while_below_eq;
    rewrite ?(width_Fin c lo hi Hmin Hmax), Hmin; cbn; auto.
Qed.

(** From +Infinity the second loop never leaves. *)
Lemma while_above_PosInf (fuel : nat) : while_above fuel c PosInf = None.
Proof.
  induction fuel as [|fuel IH]; rewrite while_above_eq;
    rewrite ?(width_Fin c lo hi Hmin Hmax), Hmax; cbn; auto.
Qed.

Lemma constrain_wrap_infinite (fuel : nat) (v : number) :
  wrap c = true -> v = NegInf \/ v = PosInf -> constrain fuel c v = None.
Proof.
  intros Hw [-> | ->]; unfold constrain; rewrite Hw.
  - by rewrite while_below_NegInf.
  - rewrite while_below_eq, Hmin. cbn. apply while_above_PosInf.
Qed.

End Constrain.

Section ConstraintTable.

Lemma well_formed_bounds (c : constraint) :
  well_formed c = true ->
  exists lo hi, min c = Fin lo /\ max c = Fin hi /\ lo < hi.
Proof.
  unfold well_formed. destruct (min c) as [| | |lo]; try discriminate.
  destruct (max c) as [| | |hi]; try discriminate.
  intros H. apply Qcltb_lt in H. eauto.
Qed.

Lemma constraints_well_formed :
  map_Forall (fun _ c => well_formed c = true) constraints.
Proof. apply (bool_decide_unpack _). by vm_compute. Qed.

Lemma constraint_bounds (param : string) (c : constraint) :
  constraints !! param = Some c ->
  exists lo hi, min c = Fin lo /\ max c = Fin hi /\ lo < hi.
Proof.
  intros H. apply well_formed_bounds.
  exact (constraints_well_formed param c H).
Qed.

(** [constrainParameter] on a finite raw value: with enough fuel it
    returns, and what it returns is [constrained]. *)
Lemma constrainParameter_finite (param : string) (x : Qc) :
  exists (n : nat) (r : Qc),
    (forall m, (n <= m)%nat ->
       constrainParameter m param (Fin x) = Some (Fin r)) /\
    constrained param (Fin x) (Fin r).
Proof.
  unfold constrainParameter, constrained.
  destruct (constraints !! param) as [c|] eqn:Hc.
  - destruct (constraint_bounds _ _ Hc) as (lo & hi & Hmin & Hmax & Hlt).
    destruct (wrap c) eqn:Hw.
    + destruct (constrain_wrap_finite c lo hi Hmin Hmax Hlt x Hw)
        as (n & r & k & Hn & Hlo & Hhi & Hk).
      exists n, r. split; [exact Hn|]. split.
      * exists lo, hi, r. auto.
      * exists lo, hi, x, r, k. auto.
    + destruct (constrain_clamp c lo hi Hmin Hmax Hlt 0 (Fin x) Hw)
        as (r & Hr & Hlo & Hhi & Hid); [discriminate|].
      exists 0%nat, r. split.
      * intros m Hm. eapply constrain_mono; eauto.
      * split; [exists lo, hi, r; auto|].
        intros (lo' & hi' & x' & Hmin' & Hmax' & [= <-] & H1 & H2).
        rewrite Hmin in Hmin'. rewrite Hmax in Hmax'.
        injection Hmin' as <-. injection Hmax' as <-.
        f_equal. auto.
  - exists 0%nat, x. auto.
Qed.

Lemma combine_finite (param : string) (p : parameter) :
  is_finite (base p) -> is_finite (reactive p) ->
  exists (n : nat) (v : number),
    (forall m, (n <= m)%nat -> combine m param p = Some (set_value v p)) /\
    constrained param (base p + reactive p)%num v.
Proof.
  intros Hb Hr. destruct (base p) as [| | |b] eqn:Eb; try done.
  destruct (reactive p) as [| | |r] eqn:Er; try done.
  destruct (constrainParameter_finite param (b + r)) as (n & v & Hn & Hv).
  exists n, (Fin v). split; [|exact Hv].
  intros m Hm. unfold combine. rewrite Eb, Er. cbn [add].
  by rewrite (Hn m Hm).
Qed.

(** One amount of fuel serves every parameter of a store. *)
Lemma uniform_fuel_of (ps : gmap string parameter) :
  (forall param p, ps !! param = Some p ->
     exists n, forall m, (n <= m)%nat -> is_Some (combine m param p)) ->
  exists n, forall m, (n <= m)%nat ->
    map_Forall (fun param p => is_Some (combine m param p)) ps.
Proof.
  induction ps as [|param p ps Hfresh IH] using map_ind; intros Hret.
  - exists 0%nat. intros m _. apply map_Forall_empty.
  - destruct IH as [n1 Hn1].
    { intros k q Hk. apply (Hret k q).
      rewrite lookup_insert_ne; [exact Hk | congruence]. }
    destruct (Hret param p) as [n2 Hn2]; [apply lookup_insert_eq|].
    exists (n1 `max` n2)%nat. intros m Hm.
    apply map_Forall_insert; [exact Hfresh|]. split.
    + apply Hn2. lia.
    + apply Hn1. lia.
Qed.

Lemma uniform_fuel (ps : gmap string parameter) :
  finite_inputs ps ->
  exists n, forall m, (n <= m)%nat ->
    map_Forall (fun param p => is_Some (combine m param p)) ps.
Proof.
  intros Hfin. apply uniform_fuel_of. intros param p Hp.
  destruct (Hfin param p Hp) as [Hb Hr].
  destruct (combine_finite param p Hb Hr) as (n & v & Hn & _).
  exists n. intros m Hm. rewrite Hn by exact Hm. eauto.
Qed.

Lemma constrainParameter_NaN (fuel : nat) (param : string) :
  constrainParameter fuel param NaN = Some NaN.
Proof.
  unfold constrainParameter.
  destruct (constraints !! param) as [c|] eqn:Hc; [|reflexivity].
  destruct (constraint_bounds _ _ Hc) as (lo & hi & Hmin & Hmax & _).
  eapply constrain_NaN; eauto.
Qed.

Lemma applyParameterRelationships_lookup (fuel : nat)
    (ps ps' : gmap string parameter) (param : string) :
  applyParameterRelationships fuel ps = Some ps' ->
  ps' !! param = ps !! param ≫= combine fuel param.
Proof.
  unfold applyParameterRelationships. case_decide; [|discriminate].
  intros [= <-]. apply map_lookup_imap.
Qed.

Lemma applyParameterRelationships_mono (n m : nat)
    (ps ps' : gmap string parameter) :
  applyParameterRelationships n ps = Some ps' -> (n <= m)%nat ->
  applyParameterRelationships m ps = Some ps'.
Proof.
  unfold applyParameterRelationships. intros H Hle.
  case_decide as Hn; [|discriminate]. injection H as <-.
  assert (Hm : map_Forall (fun param p => is_Some (combine m param p)) ps).
  { intros k q Hk. destruct (Hn k q Hk) as [q' Hq'].
    rewrite (combine_mono _ _ _ _ _ Hq' Hle). eauto. }
  rewrite decide_True by exact Hm. f_equal.
  apply map_eq. intros k. rewrite !map_lookup_imap.
  destruct (ps !! k) as [q|] eqn:Hk; [|done]. cbn.
  destruct (Hn k q Hk) as [q' Hq'].
  by rewrite Hq', (combine_mono _ _ _ _ _ Hq' Hle).
Qed.

End ConstraintTable.



Lemma hue_constraint :
  constraints !! "hue"%string = Some (mkConstraint (num 0) (num 360) true).
Proof. by vm_compute. Qed.


(** ** Totality of the constraint policy *)

Section Totality.

(** Away from an infinite raw value under a wrap constraint,
    [constrainParameter] returns. *)
Lemma constrainParameter_returns (param : string) (v : number) :
  (forall c, constraints !! param = Some c -> wrap c = true ->
             v <> PosInf /\ v <> NegInf) ->
  exists fuel r, constrainParameter fuel param v = Some r.
Proof.
  intros Hv. unfold constrainParameter.
  destruct (constraints !! param) as [c|] eqn:Hc; [|by exists 0%nat, v].
  destruct (constraint_bounds _ _ Hc) as (lo & hi & Hmin & Hmax & Hlt).
  destruct (wrap c) eqn:Hw.
  - destruct (Hv c eq_refl Hw) as [H1 H2].
    destruct v as [| | |x]; try congruence.
    + exists 0%nat, NaN. eapply constrain_NaN; eauto.
    + destruct (constrain_wrap_finite c lo hi Hmin Hmax Hlt x Hw)
        as (n & r & k & Hn & _).
      exists n, (Fin r). apply Hn. lia.
  - exists 0%nat. unfold constrain. rewrite Hw. eauto.
Qed.

End Totality.

(** C8, the code at the failing input.  With [param = 'hue'] and a raw
    value of -Infinity the loop [while (value < 0) value += 360] never
    leaves, and with +Infinity the loop [while (value > 360) value -= 360]
    never leaves: no amount of fuel makes [constrainParameter] return. *)
Theorem constrainParameter_hue_infinite_diverges (fuel : nat) :
  constrainParameter fuel "hue" NegInf = None /\
  constrainParameter fuel "hue" PosInf = None.
Proof.
  unfold constrainParameter. rewrite hue_constraint.
  split; apply (constrain_wrap_infinite _ (Q2Qc 0) (Q2Qc 360)); auto.
Qed.

(** ** The smoother *)

Section Smoother.

Lemma smoothParameters_lookup (facs : factors)
    (ps : gmap string parameter) (param : string) :
  smoothParameters facs ps !! param = smooth facs param <$> ps !! param.
Proof.
  unfold smoothParameters. rewrite map_lookup_imap.
  by destruct (ps !! param).
Qed.

End Smoother.

(** C5 (as amended).  The smoother replaces [smoothed] by
    [smoothed + (value - smoothed) * factor], where the factor depends on
    the parameter's name only, through its category: 0.15 for the
    rotations, 0.12 for the colours, 0.08 for the core parameters and 0.10
    for the rest.  The rotations have the largest factor of the four and
    the core parameters the smallest; the colour factor is smaller than
    the rotation factor. *)
Theorem smoother_formula_and_factors :
  (forall facs (ps : gmap string parameter) param,
     smoothParameters facs ps !! param =
     (fun p => set_smoothed
                 (smoothed p
                  + (value p - smoothed p) * smoothingFactor facs param)%num p)
       <$> ps !! param) /\
  (forall param,
     smoothingFactor smoothingFactors param =
     if String.prefix "rot4d" param then num 0.15
     else if is_member param ["hue"; "intensity"; "saturation"]%string
     then num 0.12
     else if is_member param ["geometry"; "gridDensity"; "morphFactor";
                              "chaos"; "speed"; "scale"]%string
     then num 0.08
     else num 0.10) /\
  (core smoothingFactors <? advanced smoothingFactors)%num = true /\
  (advanced smoothingFactors <? color smoothingFactors)%num = true /\
  (color smoothingFactors <? rotations smoothingFactors)%num = true.
Proof.
  split; [|split; [|repeat split]].
  - intros. apply smoothParameters_lookup.
  - intros param. reflexivity.
Qed.

(** C5, counterexample.  In [this.smoothingFactors] the rotations have
    0.15, which is above the 0.08 of the core parameters and above the
    0.12 of the colours. *)
Lemma rotations_not_slowest :
  ~ rotations_slowest_color_faster smoothingFactors.
Proof. intros (H & _). vm_compute in H. discriminate. Qed.

(** ** Relationships *)

(** C6, the code at the failing input.  After
    [configureRelationship('audioHigh', { hue: 0, scale: 0 })] the
    multiplier of hue (a positive target) and of scale (a negative target)
    is 0, yet [applyRelationship('audioHigh', 1)] moves the accumulator of
    hue by +1 and that of scale by -1: [0 || 1.0] is [1.0]. *)
Theorem zero_multiplier_replaced_by_one :
  multiplier_of audioHigh_muted "audioHigh" "hue" = Some (num 0) /\
  multiplier_of audioHigh_muted "audioHigh" "scale" = Some (num 0) /\
  exists ps',
    applyRelationship audioHigh_muted "audioHigh" (num 1) parameters
      = Some ps' /\
    reactive_of parameters "hue" = Some (num 0) /\
    reactive_of ps' "hue" = Some (num 1) /\
    reactive_of parameters "scale" = Some (num 0) /\
    reactive_of ps' "scale" = Some (num (-1)).
Proof.
  split; [by vm_compute|]. split; [by vm_compute|].
  destruct (applyRelationship audioHigh_muted "audioHigh" (num 1) parameters)
    as [ps'|] eqn:E; [|by vm_compute in E].
  exists ps'. split; [reflexivity|].
  assert (E' : Some ps' = applyRelationship audioHigh_muted "audioHigh"
                            (num 1) parameters) by done.
  repeat split; try by vm_compute.
  - change (Some ps' ≫= (fun ps => reactive_of ps "hue") = Some (num 1)).
    rewrite E'. by vm_compute.
  - change (Some ps' ≫= (fun ps => reactive_of ps "scale")
            = Some (num (-1))).
    rewrite E'. by vm_compute.
Qed.



Section Accumulation.

Lemma forEach_app {A S : Type} (f : S -> A -> option S) (l1 l2 : list A)
    (s : S) :
  forEach f (l1 ++ l2) s =
  match forEach f l1 s with
  | Some s' => forEach f l2 s'
  | None => None
  end.
Proof.
  revert s. induction l1 as [|a l1 IH]; intros s; simpl; [done|].
  destruct (f s a); auto.
Qed.

Lemma forEach_fmap {A B S : Type} (f : S -> B -> option S) (g : A -> B)
    (l : list A) (s : S) :
  forEach f (g <$> l) s = forEach (fun s a => f s (g a)) l s.
Proof.
  revert s. induction l as [|a l IH]; intros s; simpl; [done|].
  destruct (f s (g a)); auto.
Qed.

(** [applyRelationship] is the run of its accumulator changes. *)
Lemma applyRelationship_deltas (rels : gmap string relationship)
    (relationshipName : string) (rel : relationship) (intensity : number)
    (ps : gmap string parameter) :
  rels !! relationshipName = Some rel ->
  applyRelationship rels relationshipName intensity ps
  = forEach bump (deltas rel intensity) ps.
Proof.
  intros H. unfold applyRelationship, deltas. rewrite H.
  rewrite forEach_app, forEach_fmap.
  change (fun (s : gmap string parameter) (a : string) => bump s _)
    with (apply_positive rel intensity).
  destruct (forEach (apply_positive rel intensity) (positive rel) ps);
    [|reflexivity].
  rewrite forEach_fmap. reflexivity.
Qed.

Lemma forEach_bump_lookup (ds : list (string * number)) :
  forall (ps ps' : gmap string parameter) (param : string),
    forEach bump ds ps = Some ps' ->
    ps' !! param =
    (fun p => set_reactive (accumulate param ds (reactive p)) p)
      <$> ps !! param.
Proof.
  induction ds as [|[k d] ds IH]; intros ps ps' param H; simpl in H.
  - injection H as <-. destruct (ps !! param) as [[]|]; reflexivity.
  - destruct (bump ps (k, d)) as [ps1|] eqn:Hb; [|discriminate].
    unfold bump, update_reactive in Hb. simpl in Hb.
    destruct (ps !! k) as [x|] eqn:Hk; [|discriminate].
    injection Hb as <-. rewrite (IH _ _ param H). simpl.
    destruct (decide (k = param)) as [->|Hne].
    + rewrite lookup_insert_eq, Hk. reflexivity.
    + rewrite lookup_insert_ne by exact Hne. reflexivity.
Qed.

(** Whether the run throws depends on the keys of the store only. *)
Lemma forEach_bump_keys (ds : list (string * number)) :
  forall ps qs : gmap string parameter,
    (forall k, is_Some (ps !! k) -> is_Some (qs !! k)) ->
    is_Some (forEach bump ds ps) -> is_Some (forEach bump ds qs).
Proof.
  induction ds as [|[k d] ds IH]; intros ps qs Hdom H; simpl in *; [eauto|].
  unfold bump, update_reactive in *. simpl in *.
  destruct (ps !! k) as [x|] eqn:Hk; [|by destruct H].
  destruct (Hdom k) as [y Hy]; [eauto|]. rewrite Hy.
  eapply IH; [|exact H]. intros j.
  destruct (decide (k = j)) as [->|Hne].
  - rewrite !lookup_insert_eq. eauto.
  - rewrite !lookup_insert_ne by exact Hne. auto.
Qed.

Lemma add_not_finite (x y : number) : ~ is_finite x -> ~ is_finite (x + y)%num.
Proof. destruct x, y; simpl; auto. Qed.

Lemma accumulate_not_finite (param : string) (ds : list (string * number)) :
  forall r, ~ is_finite r -> ~ is_finite (accumulate param ds r).
Proof.
  induction ds as [|[k d] ds IH]; intros r Hr; simpl; [exact Hr|].
  apply IH. destruct (decide (k = param)); [|exact Hr].
  by apply add_not_finite.
Qed.

(** A finite outcome of the changes [ds] is a shift of the start: from
    any other finite start the same changes shift by the same amount. *)
Lemma accumulate_shift (param : string) (ds : list (string * number)) :
  forall r0 rA r0' : Qc,
    accumulate param ds (Fin r0) = Fin rA ->
    accumulate param ds (Fin r0') = Fin (r0' + (rA - r0)).
Proof.
  induction ds as [|[k d] ds IH]; intros r0 rA r0' H; simpl in *.
  - injection H as <-. f_equal. ring.
  - destruct (decide (k = param)) as [_|_].
    + destruct d as [| | |d];
        try solve [ exfalso;
                    match type of H with
                    | accumulate _ _ ?r = _ =>
                        apply (accumulate_not_finite param ds r);
                        [simpl; tauto | rewrite H; exact I]
                    end ].
      cbn [add] in *. rewrite (IH _ _ (r0' + d) H). f_equal. ring.
    + apply (IH _ _ _ H).
Qed.

End Accumulation.

Section Additivity.

Variable rels : gmap string relationship.

Lemma applyRelationship_run (relationshipName : string)
    (intensity : number) (ps : gmap string parameter) :
  applyRelationship rels relationshipName intensity ps
  = forEach bump (deltas_of rels relationshipName intensity) ps.
Proof.
  unfold deltas_of.
  destruct (rels !! relationshipName) as [rel|] eqn:H.
  - by apply applyRelationship_deltas.
  - unfold applyRelationship. by rewrite H.
Qed.

Lemma forEach_bump_keys_after (ds : list (string * number))
    (ps ps' : gmap string parameter) (k : string) :
  forEach bump ds ps = Some ps' -> is_Some (ps !! k) -> is_Some (ps' !! k).
Proof.
  intros H [x Hx]. rewrite (forEach_bump_lookup _ _ _ k H), Hx. eauto.
Qed.

(** The changes [ds], which move [param] from [r0] to [r] in one store,
    move it by [r - r0] in any store that has the same keys. *)
Lemma run_shift (ds : list (string * number))
    (ps ps' qs : gmap string parameter) (param : string) (r0 r s0 : Qc) :
  forEach bump ds ps = Some ps' ->
  reactive_of ps param = Some (Fin r0) ->
  reactive_of ps' param = Some (Fin r) ->
  (forall k, is_Some (ps !! k) -> is_Some (qs !! k)) ->
  reactive_of qs param = Some (Fin s0) ->
  exists qs',
    forEach bump ds qs = Some qs' /\
    reactive_of qs' param = Some (Fin (s0 + (r - r0))).
Proof.
  unfold reactive_of. intros Hrun H0 Hr Hkeys Hs.
  destruct (forEach_bump_keys ds ps qs Hkeys) as [qs' Hqs']; [eauto|].
  exists qs'. split; [exact Hqs'|].
  rewrite (forEach_bump_lookup _ _ _ param Hrun) in Hr.
  rewrite (forEach_bump_lookup _ _ _ param Hqs').
  destruct (ps !! param) as [p|]; [|discriminate].
  destruct (qs !! param) as [q|]; [|discriminate].
  simpl in *. injection H0 as H0. injection Hs as Hs. injection Hr as Hr.
  rewrite H0 in Hr. rewrite Hs.
  by rewrite (accumulate_shift _ _ _ _ s0 Hr).
Qed.

End Additivity.



(** ** Non-finite values *)




(** ** Scenario A *)

(** C9.  From the constructor's parameters (hue: base 200, smoothed 200),
    one tick whose only contribution is [applyRelationship('audioHigh',
    1.0)] leaves hue with reactive 50, value 250 and smoothed 206, which
    is [200 + 0.12 * (250 - 200)]: the hue multiplier of audioHigh is 50
    and the factor of hue is the colour factor 0.12.  The snapshot carries
    206 for hue. *)
Theorem scenario_A :
  base_of parameters "hue" = Some (num 200) /\
  smoothed_of parameters "hue" = Some (num 200) /\
  multiplier_of relationships "audioHigh" "hue" = Some (num 50) /\
  smoothingFactor smoothingFactors "hue" = color smoothingFactors /\
  color smoothingFactors = num 0.12 /\
  exists ps',
    processReactivity 0 relationships smoothingFactors frame_A parameters
      = Some ps' /\
    reactive_of ps' "hue" = Some (num 50) /\
    value_of ps' "hue" = Some (num 250) /\
    smoothed_of ps' "hue"
      = Some (num 200 + num 0.12 * (num 250 - num 200))%num /\
    smoothed_of ps' "hue" = Some (num 206) /\
    finalParameters ps' !! "hue"%string = Some (num 206).
Proof.
  do 5 (split; [by vm_compute|]).
  destruct (processReactivity 0 relationships smoothingFactors frame_A
              parameters) as [ps'|] eqn:E; [|by vm_compute in E].
  assert (Hh : ps' !! "hue"%string
               = Some (mkParam (num 250) (num 200) (num 50) (num 206))).
  { change (Some ps' ≫= (.!! "hue"%string)
            = Some (mkParam (num 250) (num 200) (num 50) (num 206))).
    rewrite <- E. by vm_compute. }
  exists ps'. split; [reflexivity|].
  unfold reactive_of, value_of, smoothed_of, finalParameters.
  rewrite lookup_fmap, Hh. repeat split; by vm_compute.
Qed.

(** ** The hue invariant along the life of the system *)

Section FiniteFrames.

Variable rels : gmap string relationship.
Hypothesis Hmult : finite_multipliers rels.
Hypothesis Htargets : targets_in rels parameters.

Lemma mul_finite (x y : number) :
  is_finite x -> is_finite y -> is_finite (x * y)%num.
Proof. destruct x, y; simpl; tauto. Qed.

Lemma add_finite (x y : number) :
  is_finite x -> is_finite y -> is_finite (x + y)%num.
Proof. destruct x, y; simpl; tauto. Qed.

Lemma neg_finite (x : number) : is_finite x -> is_finite (neg x).
Proof. destruct x; simpl; tauto. Qed.

Lemma or_default_finite (v : option number) (d : number) :
  (forall x, v = Some x -> x = NaN \/ is_finite x) -> is_finite d ->
  is_finite (or_default v d).
Proof.
  intros Hv Hd. destruct v as [x|]; simpl; [|exact Hd].
  destruct (Hv x eq_refl) as [-> | Hx]; [exact Hd|].
  destruct (truthy x); auto.
Qed.

Lemma deltas_finite (rel : relationship) (name : string) (intensity : number) :
  rels !! name = Some rel -> is_finite intensity ->
  Forall (fun d => is_finite d.2) (deltas rel intensity).
Proof.
  intros Hrel Hi. pose proof (Hmult name rel Hrel) as Hm.
  unfold deltas. apply Forall_app. split; apply Forall_fmap, Forall_forall;
    intros param _; unfold compose; cbn [snd].
  - apply mul_finite; [exact Hi|]. apply or_default_finite; [|exact I].
    intros x Hx. right. exact (Hm param x Hx).
  - apply neg_finite, mul_finite; [exact Hi|].
    apply or_default_finite; [|exact I].
    intros x [= <-]. destruct (multipliers rel !! param) as [m|] eqn:E.
    + right. pose proof (Hm param m E). destruct m; simpl in *; auto.
    + left. reflexivity.
Qed.

Lemma deltas_targets (rel : relationship) (intensity : number) :
  (fun d : string * number => d.1) <$> deltas rel intensity
  = positive rel ++ negative rel.
Proof.
  unfold deltas. rewrite fmap_app, <- !list_fmap_compose.
  f_equal; apply list_fmap_id.
Qed.

Lemma accumulate_finite (param : string) (ds : list (string * number)) :
  Forall (fun d => is_finite d.2) ds ->
  forall r, is_finite r -> is_finite (accumulate param ds r).
Proof.
  induction 1 as [|[k d] ds Hd _ IH]; intros r Hr; simpl; [exact Hr|].
  apply IH. destruct (decide (k = param)); [|exact Hr].
  by apply add_finite.
Qed.

Lemma accumulate_app (param : string) (ds1 ds2 : list (string * number))
    (r : number) :
  accumulate param (ds1 ++ ds2) r
  = accumulate param ds2 (accumulate param ds1 r).
Proof. apply foldl_app. Qed.

Lemma forEach_bump_defined (ds : list (string * number)) :
  forall ps : gmap string parameter,
    Forall (fun d => is_Some (ps !! d.1)) ds ->
    is_Some (forEach bump ds ps).
Proof.
  induction ds as [|[k d] ds IH]; intros ps Hds; simpl; [eauto|].
  apply Forall_cons in Hds as [[x Hx] Hds]. simpl in Hx.
  unfold bump, update_reactive. simpl. rewrite Hx.
  apply IH. eapply Forall_impl; [exact Hds|].
  intros [j e] Hj. simpl in *.
  destruct (decide (k = j)) as [->|Hne].
  - rewrite lookup_insert_eq. eauto.
  - by rewrite lookup_insert_ne.
Qed.

Lemma set_reactive_same (p : parameter) : set_reactive (reactive p) p = p.
Proof. by destruct p. Qed.

Lemma contribute_accumulated (ps : gmap string parameter) (c : contribution) :
  (forall k, is_Some (parameters !! k) -> is_Some (ps !! k)) ->
  finite_contribution c ->
  exists ps' ds,
    contribute rels ps c = Some ps' /\
    Forall (fun d => is_finite d.2) ds /\ accumulated ds ps ps'.
Proof.
  intros Hkeys Hc. destruct c as [name intensity | param amount]; simpl in *.
  - rewrite applyRelationship_run. unfold deltas_of.
    destruct (rels !! name) as [rel|] eqn:Hrel.
    + destruct (forEach_bump_defined (deltas rel intensity) ps) as [ps' Hps'].
      { apply (Forall_fmap (fun d : string * number => d.1)
                 (fun k => is_Some (ps !! k))).
        rewrite deltas_targets.
        eapply Forall_impl; [exact (Htargets name rel Hrel)|].
        intros k. apply Hkeys. }
      exists ps', (deltas rel intensity). split; [exact Hps'|]. split.
      * by apply (deltas_finite rel name).
      * intros k. by apply forEach_bump_lookup.
    + exists ps, []. split; [reflexivity|]. split; [constructor|].
      intros k. simpl. destruct (ps !! k) as [p|]; [|done].
      simpl. by rewrite set_reactive_same.
  - exists (add_reactive ps param amount), [(param, amount)].
    split; [reflexivity|]. split; [by repeat constructor|].
    intros k. unfold add_reactive. simpl.
    destruct (ps !! param) as [p|] eqn:Hp.
    + destruct (decide (param = k)) as [<-|Hne].
      * by rewrite lookup_insert_eq, Hp.
      * rewrite lookup_insert_ne by exact Hne.
        destruct (ps !! k) as [q|]; [|done]. simpl.
        by rewrite set_reactive_same.
    + destruct (decide (param = k)) as [<-|Hne].
      * by rewrite Hp.
      * destruct (ps !! k) as [q|]; [|done]. simpl.
        by rewrite set_reactive_same.
Qed.

Lemma frame_accumulated (frame : list contribution) :
  forall ps : gmap string parameter,
    (forall k, is_Some (parameters !! k) -> is_Some (ps !! k)) ->
    Forall finite_contribution frame ->
    exists ps' ds,
      forEach (contribute rels) frame ps = Some ps' /\
      Forall (fun d => is_finite d.2) ds /\ accumulated ds ps ps'.
Proof.
  induction frame as [|c frame IH]; intros ps Hkeys Hframe.
  - exists ps, []. split; [reflexivity|]. split; [constructor|].
    intros k. simpl. destruct (ps !! k) as [p|]; [|done].
    simpl. by rewrite set_reactive_same.
  - apply Forall_cons in Hframe as [Hc Hframe].
    destruct (contribute_accumulated ps c Hkeys Hc)
      as (ps1 & ds1 & Hps1 & Hds1 & Hacc1).
    destruct (IH ps1) as (ps2 & ds2 & Hps2 & Hds2 & Hacc2);
      [|exact Hframe|].
    { intros k Hk. rewrite (Hacc1 k). apply fmap_is_Some. auto. }
    exists ps2, (ds1 ++ ds2). simpl. rewrite Hps1.
    split; [exact Hps2|]. split; [by apply Forall_app|].
    intros k. rewrite (Hacc2 k), (Hacc1 k).
    destruct (ps !! k) as [p|]; [|done]. cbn.
    by rewrite accumulate_app.
Qed.

End FiniteFrames.

Section HueInvariant.

Variable rels : gmap string relationship.
Variable facs : factors.
Variable f : Qc.
Hypothesis Hmult : finite_multipliers rels.
Hypothesis Htargets : targets_in rels parameters.
Hypothesis Hfactor : smoothingFactor facs "hue" = Fin f.
Hypothesis Hf0 : 0 <= f.
Hypothesis Hf1 : f < 1.

(** A step of the smoother from inside [0, 360) towards a value of
    [0, 360] stays inside [0, 360). *)
Lemma smooth_in_range (s v : Qc) :
  0 <= s -> s < Q2Qc 360 -> 0 <= v -> v <= Q2Qc 360 ->
  0 <= s + (v + - s) * f /\ s + (v + - s) * f < Q2Qc 360.
Proof.
  revert Hf0 Hf1. qc_arith. split; nra.
Qed.

Lemma hue_constrained (raw v : Qc) :
  constrained "hue" (Fin raw) (Fin v) -> 0 <= v /\ v <= Q2Qc 360.
Proof.
  unfold constrained. rewrite hue_constraint.
  intros [(lo & hi & x & Hlo & Hhi & Hx & H1 & H2) _]. cbn in *.
  injection Hlo as <-. injection Hhi as <-. injection Hx as <-. auto.
Qed.

Lemma combine_shape (fuel : nat) (param : string) (p p' : parameter) :
  combine fuel param p = Some p' ->
  exists v,
    constrainParameter fuel param (base p + reactive p)%num = Some v /\
    p' = set_value v p.
Proof.
  unfold combine. destruct (constrainParameter _ _ _) as [v|]; [|discriminate].
  intros [= <-]. eauto.
Qed.

(** One tick, on a store that satisfies the invariant and with a frame
    of finite contributions, returns given enough fuel, and the store it
    returns satisfies the invariant. *)
Lemma tick_preserves (frame : list contribution)
    (ps : gmap string parameter) :
  hue_invariant ps -> Forall finite_contribution frame ->
  exists n ps',
    (forall m, (n <= m)%nat ->
       processReactivity m rels facs frame ps = Some ps') /\
    hue_invariant ps'.
Proof.
  intros (Hkeys & Hbase & p & s & Hp & Hs & Hs0 & Hs1) Hframe.
  set (ps0 := set_reactive (num 0) <$> ps).
  destruct (frame_accumulated rels Hmult Htargets frame ps0)
    as (ps1 & ds & Hps1 & Hds & Hacc); [|exact Hframe|].
  { intros k Hk. unfold ps0. rewrite lookup_fmap. apply fmap_is_Some.
    by apply Hkeys. }
  assert (Hlook1 : forall k,
            ps1 !! k
            = (fun q => mkParam (value q) (base q)
                                (accumulate k ds (num 0)) (smoothed q))
                <$> ps !! k).
  { intros k. rewrite (Hacc k). unfold ps0. rewrite lookup_fmap.
    by destruct (ps !! k). }
  assert (Hfin : finite_inputs ps1).
  { intros k q Hq. rewrite Hlook1 in Hq.
    destruct (ps !! k) as [q0|] eqn:Hq0; [|discriminate].
    injection Hq as <-. simpl. split; [by apply (Hbase k)|].
    by apply accumulate_finite. }
  destruct (uniform_fuel ps1 Hfin) as [n Hn].
  set (ps2 := map_imap (combine n) ps1).
  assert (Hps2 : forall m, (n <= m)%nat ->
                   applyParameterRelationships m ps1 = Some ps2).
  { intros m Hm. apply (applyParameterRelationships_mono n); [|exact Hm].
    unfold applyParameterRelationships.
    rewrite decide_True; [reflexivity | apply Hn; lia]. }
  exists n, (smoothParameters facs ps2). split.
  { intros m Hm. unfold processReactivity. fold ps0.
    by rewrite Hps1, (Hps2 m Hm). }
  assert (Hlook : forall k q,
            ps !! k = Some q ->
            exists v,
              constrainParameter n k
                (base q + accumulate k ds (num 0))%num = Some v /\
              smoothParameters facs ps2 !! k
              = Some (smooth facs k
                        (mkParam v (base q) (accumulate k ds (num 0))
                                 (smoothed q)))).
  { intros k q Hq. rewrite smoothParameters_lookup.
    unfold ps2. rewrite map_lookup_imap, Hlook1, Hq. cbn.
    destruct (Hn n (le_n n) k _ ltac:(by rewrite Hlook1, Hq)) as [q' Hq'].
    rewrite Hq'. apply combine_shape in Hq' as (v & Hv & ->).
    exists v. split; [exact Hv | reflexivity]. }
  split; [|split].
  - intros k. rewrite <- Hkeys. rewrite smoothParameters_lookup.
    unfold ps2. rewrite map_lookup_imap, Hlook1.
    destruct (ps !! k) as [q|] eqn:Hq; cbn.
    + destruct (Hlook k q Hq) as (v & Hv & _).
      unfold combine. cbn. rewrite Hv. cbn. split; eauto.
    + split; intros [? ?]; discriminate.
  - intros k q' Hq'.
    destruct (ps !! k) as [q|] eqn:Hq.
    + destruct (Hlook k q Hq) as (v & _ & Hv). rewrite Hv in Hq'.
      injection Hq' as <-. simpl. by apply (Hbase k).
    + rewrite smoothParameters_lookup in Hq'.
      unfold ps2 in Hq'. by rewrite map_lookup_imap, Hlook1, Hq in Hq'.
  - destruct (Hlook "hue"%string p Hp) as (v & Hv & Hhue).
    pose proof (Hbase _ _ Hp) as Hb.
    destruct (base p) as [| | |b] eqn:Eb; try done.
    pose proof (accumulate_finite "hue"%string ds Hds (num 0) I) as Hr.
    destruct (accumulate "hue"%string ds (num 0)) as [| | |r] eqn:Er;
      try done.
    cbn [add] in Hv.
    destruct (constrainParameter_finite "hue" (b + r)) as (n' & v' & Hn' & Hc).
    pose proof (constrainParameter_mono _ _ (n `max` n')%nat _ _ Hv
                  ltac:(lia)) as H1.
    rewrite Hn' in H1 by lia. injection H1 as <-.
    apply hue_constrained in Hc as [Hv0 Hv1].
    destruct (smooth_in_range s v' Hs0 Hs1 Hv0 Hv1) as [H0 H1].
    eexists _, (s + (v' + - s) * f). split; [exact Hhue|].
    unfold smooth, set_smoothed. rewrite Hfactor. cbn [smoothed value].
    rewrite Hs. split; [reflexivity|]. split; assumption.
Qed.

Lemma setBase_preserves (param : string) (v : number)
    (ps : gmap string parameter) :
  hue_invariant ps -> is_finite v ->
  hue_invariant (setBaseParameter param v ps).
Proof.
  intros (Hkeys & Hbase & p & s & Hp & Hs & Hs0 & Hs1) Hv.
  unfold setBaseParameter. destruct (ps !! param) as [q|] eqn:Hq.
  - split; [|split].
    + intros k. rewrite <- Hkeys.
      destruct (decide (param = k)) as [<-|Hne].
      * rewrite lookup_insert_eq, Hq. split; eauto.
      * by rewrite lookup_insert_ne.
    + intros k q'. destruct (decide (param = k)) as [<-|Hne].
      * rewrite lookup_insert_eq. by intros [= <-].
      * rewrite lookup_insert_ne by exact Hne. apply Hbase.
    + destruct (decide (param = "hue"%string)) as [->|Hne].
      * rewrite Hp in Hq. injection Hq as <-.
        exists (set_base v p), s. rewrite lookup_insert_eq. auto.
      * exists p, s. rewrite lookup_insert_ne by exact Hne. auto.
  - split; [exact Hkeys|]. split; [exact Hbase|]. eauto 10.
Qed.

Lemma processReactivity_mono (n m : nat) (frame : list contribution)
    (ps ps' : gmap string parameter) :
  processReactivity n rels facs frame ps = Some ps' -> (n <= m)%nat ->
  processReactivity m rels facs frame ps = Some ps'.
Proof.
  unfold processReactivity. intros H Hle.
  destruct (forEach _ frame _) as [ps1|]; [|discriminate].
  destruct (applyParameterRelationships n ps1) as [ps2|] eqn:E;
    [|discriminate].
  by rewrite (applyParameterRelationships_mono _ _ _ _ E Hle).
Qed.

Lemma run_mono (n m : nat) (events : list event) :
  forall ps ps' : gmap string parameter,
    run n rels facs events ps = Some ps' -> (n <= m)%nat ->
    run m rels facs events ps = Some ps'.
Proof.
  unfold run. induction events as [|e events IH]; intros ps ps' H Hle;
    simpl in *; [exact H|].
  destruct (step n rels facs ps e) as [ps1|] eqn:E; [|discriminate].
  assert (E' : step m rels facs ps e = Some ps1).
  { destruct e; simpl in *; [|exact E].
    by apply (processReactivity_mono n). }
  rewrite E'. by apply IH.
Qed.

(** A history of finite events, from a store that satisfies the
    invariant, runs to its end given enough fuel, and ends in a store
    that satisfies the invariant. *)
Lemma run_preserves (events : list event) :
  forall ps : gmap string parameter,
    hue_invariant ps -> Forall finite_event events ->
    exists n ps',
      (forall m, (n <= m)%nat -> run m rels facs events ps = Some ps') /\
      hue_invariant ps'.
Proof.
  induction events as [|e events IH]; intros ps Hinv Hev.
  - exists 0%nat, ps. split; [reflexivity | exact Hinv].
  - apply Forall_cons in Hev as [He Hev].
    assert (Hstep : exists n1 ps1,
              (forall m, (n1 <= m)%nat -> step m rels facs ps e = Some ps1) /\
              hue_invariant ps1).
    { destruct e as [frame | param v]; simpl in *.
      - by apply tick_preserves.
      - exists 0%nat, (setBaseParameter param v ps).
        split; [reflexivity | by apply setBase_preserves]. }
    destruct Hstep as (n1 & ps1 & Hn1 & Hinv1).
    destruct (IH ps1 Hinv1 Hev) as (n2 & ps2 & Hn2 & Hinv2).
    exists (n1 `max` n2)%nat, ps2. split; [|exact Hinv2].
    intros m Hm. unfold run. simpl. rewrite Hn1 by lia.
    apply Hn2. lia.
Qed.

End HueInvariant.

Section ConstructorState.

Lemma relationships_finite : finite_multipliers relationships.
Proof. apply (bool_decide_unpack _). by vm_compute. Qed.

Lemma relationships_targets : targets_in relationships parameters.
Proof. apply (bool_decide_unpack _). by vm_compute. Qed.

Lemma parameters_invariant : hue_invariant parameters.
Proof.
  split; [tauto|]. split.
  - apply (bool_decide_unpack _). by vm_compute.
  - exists (fresh 200), (Q2Qc 200).
    split; [reflexivity|]. split; [reflexivity|].
    split; [by apply Qcltb_ge | by apply Qcltb_lt].
Qed.

Lemma hue_factor : smoothingFactor smoothingFactors "hue" = Fin (Q2Qc 0.12).
Proof. reflexivity. Qed.

End ConstructorState.



(** ** Momentum after release *)

Import TouchGyroscope6D.

Section Momentum.

Variable effects : gmap string effect.

Lemma magnitude_sum_nonneg (rots : list (string * number)) :
  0 <= magnitude_sum rots.
Proof.
  induction rots as [|[a x] rots IH]; simpl.
  - apply Qcle_refl.
  - assert (H : 0 <= magnitude x).
    { destruct x; simpl; try apply Qcle_refl. apply Qcabs_nonneg. }
    revert H IH. qc_arith. lra.
Qed.

Lemma totalRotation_from (rots : list (string * number)) :
  Forall (fun rot => is_finite rot.2) rots ->
  forall a : Qc,
    foldl (fun sum val => (sum + Math_abs val)%num) (Fin a) rots.*2
    = Fin (a + magnitude_sum rots).
Proof.
  induction 1 as [|[k x] rots Hx _ IH]; intros a; simpl.
  - f_equal. ring.
  - destruct x as [| | |q]; try done. cbn [add Math_abs].
    rewrite IH. simpl. f_equal. ring.
Qed.

Lemma totalRotation_finite (rots : list (string * number)) :
  Forall (fun rot => is_finite rot.2) rots ->
  totalRotation rots = Fin (magnitude_sum rots).
Proof.
  intros H. unfold totalRotation, num.
  rewrite (totalRotation_from rots H). f_equal. ring.
Qed.

Lemma damped_by_finite (D : Qc) (rots : list (string * number)) :
  Forall (damped_by effects D) rots ->
  Forall (fun rot => is_finite rot.2) rots.
Proof.
  intros H. eapply Forall_impl; [exact H|].
  intros rot (q & e & d & Hq & _). by rewrite Hq.
Qed.

Lemma damped_by_weaken (D D' : Qc) (rot : string * number) :
  D <= D' -> damped_by effects D rot -> damped_by effects D' rot.
Proof.
  intros HD (q & e & d & Hq & He & Hd & H0 & H1).
  exists q, e, d. repeat split; auto. by apply Qcle_trans with D.
Qed.

(** The axes share a bound below 1 on their dampening factors. *)
Lemma damped_bound (rots : list (string * number)) :
  Forall (damped effects) rots ->
  exists D, 0 < D /\ D < 1 /\ Forall (damped_by effects D) rots.
Proof.
  induction 1 as [|rot rots (q & e & d & Hq & He & Hd & H0 & H1) _ IH].
  - exists (Q2Qc (1 # 2)). repeat split; constructor.
  - destruct IH as (D & HD0 & HD1 & HD).
    destruct (Qclt_le_dec D d) as [Hlt | Hle].
    + exists d. repeat split; auto. constructor.
      * exists q, e, d. repeat split; auto; apply Qcle_refl.
      * eapply Forall_impl; [exact HD|]. intros r.
        apply damped_by_weaken. by apply Qclt_le_weak.
    + exists D. repeat split; auto. constructor; [|exact HD].
      exists q, e, d. repeat split; auto.
Qed.

Lemma decays_one (D q d : Qc) :
  0 < d -> d <= D -> D < 1 ->
  (q = 0 -> q * d = 0) /\
  (q <> 0 -> q * d <> 0 /\ Qcabs (q * d) < Qcabs q) /\
  Qcabs (q * d) <= D * Qcabs q.
Proof.
  intros H0 H1 HD.
  assert (Hd : 0 <= d) by (by apply Qclt_le_weak).
  rewrite (Qcabs_mult_pos q d Hd).
  pose proof (Qcabs_nonneg q) as Ha.
  split; [intros ->; ring|]. split.
  - intros Hq. pose proof (Qcabs_pos q Hq) as Hp. split.
    + intros E. apply Qcmult_integral in E as [E | E]; [by apply Hq|].
      rewrite E in H0. by apply (Qclt_not_le _ _ H0), Qcle_refl.
    + revert H0 H1 HD Hp. qc_arith. nra.
  - revert H0 H1 HD Ha. qc_arith. nra.
Qed.

(** One run of the closure's [forEach]: it does not throw, and every
    axis decays. *)
Lemma dampen_step (D : Qc) (rots : list (string * number)) :
  D < 1 -> Forall (damped_by effects D) rots ->
  exists rots',
    mapM (dampen effects) rots = Some rots' /\
    Forall2 decays rots rots' /\
    Forall (damped_by effects D) rots' /\
    magnitude_sum rots' <= D * magnitude_sum rots.
Proof.
  intros HD. induction 1
    as [|[a x] rots (q & e & d & Hq & He & Hd & H0 & H1) _ IH]; simpl in *.
  - exists []. repeat split; try constructor.
    change (Q2Qc 0 <= D * Q2Qc 0). qc_arith. lra.
  - destruct IH as (rots' & Hrots' & Hdec & Hdamp & Hsum).
    subst x.
    assert (Hda : dampen effects (a, Fin q) = Some (a, Fin (q * d))).
    { unfold dampen. cbn [fst snd]. by rewrite He, Hd. }
    rewrite Hda, Hrots'. cbn.
    destruct (decays_one D q d H0 H1 HD) as (Hz & Hnz & Hle).
    exists ((a, Fin (q * d)) :: rots'). split; [reflexivity|].
    split; [|split].
    + constructor; [|exact Hdec]. split; [reflexivity|].
      exists q, (q * d). auto.
    + constructor; [|exact Hdamp]. exists (q * d), e, d. auto.
    + simpl. revert Hle Hsum. qc_arith. lra.
Qed.

End Momentum.

Section Termination.

Variable effects : gmap string effect.
Variable D : Qc.
Hypothesis HD0 : 0 < D.
Hypothesis HD1 : D < 1.

Lemma applyTouchMomentum_eq (fuel : nat) (isActive : bool)
    (rots : list (string * number)) :
  applyTouchMomentum (S fuel) effects isActive rots =
  match mapM (dampen effects) rots with
  | None => None
  | Some rots' =>
      if (totalRotation rots' >? epsilon)%num && isActive then
        match applyTouchMomentum fuel effects isActive rots' with
        | Some frames => Some (rots' :: frames)
        | None => None
        end
      else Some [rots']
  end.
Proof. reflexivity. Qed.

Lemma Qc_of_nat_nonneg (n : nat) : 0 <= Qc_of_Z (Z.of_nat n).
Proof. apply (Qc_of_Z_mono 0 n). lia. Qed.

(** The budget argument: a total of at most
    [epsilon * (1 + n * (1 - D))] is brought to [epsilon] or below within
    [n + 1] frames, because one frame multiplies the total by [D] at
    most and [D * (1 + (n + 1) * (1 - D)) <= 1 + n * (1 - D)]. *)
Lemma momentum_terminates (n : nat) :
  forall rots : list (string * number),
    Forall (damped_by effects D) rots ->
    magnitude_sum rots
      <= Q2Qc 0.001 * (1 + Qc_of_Z (Z.of_nat n) * (1 - D)) ->
    exists frames,
      applyTouchMomentum (S n) effects true rots = Some frames /\
      decay_chain rots frames /\ stops_at_last frames.
Proof.
  induction n as [|n IH]; intros rots Hdamp Hsum;
    destruct (dampen_step effects D rots HD1 Hdamp)
      as (rots' & Hrots' & Hdec & Hdamp' & Hsum');
    pose proof (magnitude_sum_nonneg rots) as Hpos;
    pose proof (magnitude_sum_nonneg rots') as Hpos';
    rewrite applyTouchMomentum_eq, Hrots';
    rewrite (totalRotation_finite rots')
      by (by apply (damped_by_finite effects D));
    unfold epsilon, num; rewrite gt_Fin, andb_true_r.
  - assert (Hstop : Qcltb (Q2Qc 0.001) (magnitude_sum rots') = false).
    { apply Qcltb_ge. change (Qc_of_Z (Z.of_nat 0)) with 0 in Hsum.
      assert (Hshrink : D * magnitude_sum rots <= magnitude_sum rots).
      { revert HD0 HD1 Hpos. qc_arith. nra. }
      revert Hshrink Hsum Hsum'. qc_arith. lra. }
    rewrite Hstop. exists [rots']. split; [reflexivity|].
    split; [by split|]. simpl.
    rewrite (totalRotation_finite rots')
      by (by apply (damped_by_finite effects D)).
    exact Hstop.
  - destruct (Qcltb (Q2Qc 0.001) (magnitude_sum rots')) eqn:Hgo.
    + destruct (IH rots' Hdamp') as (frames & Hrun & Hchain & Hstop).
      { pose proof (Qc_of_nat_nonneg n) as Hn.
        rewrite Qc_of_Z_succ in Hsum.
        set (k := Qc_of_Z (Z.of_nat n)) in *.
        assert (Hshrink : D * magnitude_sum rots
                          <= D * (Q2Qc 0.001 * (1 + (k + 1) * (1 - D)))).
        { revert HD0 Hsum. qc_arith. nra. }
        assert (Hbudget : D * (1 + (k + 1) * (1 - D)) <= 1 + k * (1 - D)).
        { assert (Hsq : 0 <= (1 - D) * (1 - D)).
          { revert HD1. qc_arith. nra. }
          assert (Hksq : 0 <= k * ((1 - D) * (1 - D))).
          { revert Hn Hsq. generalize ((1 - D) * (1 - D)). qc_arith. nra. }
          revert Hsq Hksq. qc_arith. lra. }
        revert Hshrink Hbudget Hsum'. qc_arith. nra. }
      rewrite Hrun. exists (rots' :: frames). split; [reflexivity|].
      split; [by split|].
      destruct frames as [|fr frames]; [destruct Hstop|].
      split; [|exact Hstop].
      rewrite (totalRotation_finite rots')
        by (by apply (damped_by_finite effects D)).
      exact Hgo.
    + exists [rots']. split; [reflexivity|]. split; [by split|]. simpl.
      rewrite (totalRotation_finite rots')
        by (by apply (damped_by_finite effects D)).
      exact Hgo.
Qed.

End Termination.

Section Frozen.

Lemma applyTouchMomentum_mono (effects : gmap string effect)
    (isActive : bool) (n m : nat) :
  forall (rots : list (string * number)) frames,
    applyTouchMomentum n effects isActive rots = Some frames ->
    (n <= m)%nat ->
    applyTouchMomentum m effects isActive rots = Some frames.
Proof.
  revert m. induction n as [|n IH]; intros m rots frames H Hle;
    [discriminate|].
  destruct m as [|m]; [lia|]. rewrite applyTouchMomentum_eq in *.
  destruct (mapM (dampen effects) rots) as [rots'|]; [|discriminate].
  destruct ((totalRotation rots' >? epsilon)%num && isActive); [|exact H].
  destruct (applyTouchMomentum n effects isActive rots') as [fr|] eqn:E;
    [|discriminate].
  by rewrite (IH m rots' fr E ltac:(lia)).
Qed.

Lemma decays_keeps_nonzero (rot rot' : string * number) :
  decays rot rot' -> keeps_nonzero rot rot'.
Proof.
  intros (_ & q & q' & Hq & Hq' & _ & Hnz). exists q, q'.
  repeat split; auto. intros H. by apply Hnz.
Qed.

Lemma keeps_nonzero_trans (l1 l2 l3 : list (string * number)) :
  Forall2 keeps_nonzero l1 l2 -> Forall2 decays l2 l3 ->
  Forall2 keeps_nonzero l1 l3.
Proof.
  intros H. revert l3. induction H as [|r1 r2 l1 l2 H12 _ IH]; intros l3 H23.
  - inversion H23. constructor.
  - inversion H23 as [|? r3 ? l3' Hd Hrest]; subst. constructor; [|by apply IH].
    destruct H12 as (q1 & q2 & H1 & H2 & Hn12).
    destruct Hd as (_ & q2' & q3 & H2' & H3 & _ & Hn23).
    rewrite H2 in H2'. injection H2' as <-.
    exists q1, q3. repeat split; auto. intros Hq. by apply Hn23, Hn12.
Qed.

(** The state in which the loop stops holds a rotation that is not zero
    on every axis that was not at zero on release. *)
Lemma frozen_nonzero (frames : list (list (string * number))) :
  forall rots start final,
    Forall2 keeps_nonzero start rots ->
    decay_chain rots frames -> last frames = Some final ->
    Forall2 keeps_nonzero start final.
Proof.
  induction frames as [|fr frames IH]; intros rots start final Hs Hc Hl;
    [discriminate|].
  destruct Hc as [Hd Hc].
  pose proof (keeps_nonzero_trans _ _ _ Hs Hd) as Hs'.
  destruct frames as [|fr' frames].
  - simpl in Hl. by injection Hl as <-.
  - apply (IH fr start final Hs' Hc). exact Hl.
Qed.

End Frozen.


Lemma damped_after_drag : Forall (damped rotationEffects) after_drag.
Proof.
  repeat constructor; eexists _, _, _;
    (split; [reflexivity|]); (split; [reflexivity|]);
    (split; [reflexivity|]); split; by apply Qcltb_lt.
Qed.


(** C4, counterexample.  One axis is released at 0.002 with the
    constructor's dampening factors.  The loop stops after 14 frames,
    when the total is at or below 0.001; the rotation it leaves on that
    axis is above zero, and nothing in the loop sets it to zero. *)
Lemma momentum_stops_above_zero :
  exists frames final v,
    applyTouchMomentum 14 rotationEffects true one_axis = Some frames /\
    length frames = 14%nat /\
    last frames = Some final /\
    (totalRotation final >? epsilon)%num = false /\
    final !! 0%nat = Some ("rot4dXW"%string, Fin v) /\
    0 < v.
Proof.
  destruct (applyTouchMomentum 14 rotationEffects true one_axis)
    as [frames|] eqn:E; [|by vm_compute in E].
  destruct (last frames) as [final|] eqn:El.
  2:{ exfalso.
      assert (H : Some frames ≫= last <> None)
        by (rewrite <- E; by vm_compute).
      apply H. exact El. }
  exists frames, final,
    (Q2Qc (799006685782884121 # 819200000000000000000)).
  split; [reflexivity|].
  assert (Hf : Some final
               = applyTouchMomentum 14 rotationEffects true one_axis
                   ≫= last).
  { rewrite E. cbn. by rewrite El. }
  split.
  { assert (H : Some frames ≫= (fun fr => Some (length fr)) = Some 14%nat)
      by (rewrite <- E; by vm_compute).
    by injection H. }
  split; [exact El|]. split.
  { assert (H : Some final
                  ≫= (fun fr => Some (totalRotation fr >? epsilon)%num)
                = Some false)
      by (rewrite Hf; by vm_compute).
    by injection H. }
  split.
  { change (Some final ≫= (.!! 0%nat)
            = Some ("rot4dXW"%string,
                    Fin (Q2Qc (799006685782884121
                               # 819200000000000000000)))).
    rewrite Hf. by vm_compute. }
  by apply Qcltb_lt.
Qed.

(** ** One tick, parameter by parameter *)

Section TickShape.

Variable rels : gmap string relationship.

Lemma accumulated_refl (ps : gmap string parameter) : accumulated [] ps ps.
Proof.
  intros k. simpl. destruct (ps !! k) as [p|]; [|done].
  simpl. by rewrite set_reactive_same.
Qed.

Lemma accumulated_trans (ds1 ds2 : list (string * number))
    (ps1 ps2 ps3 : gmap string parameter) :
  accumulated ds1 ps1 ps2 -> accumulated ds2 ps2 ps3 ->
  accumulated (ds1 ++ ds2) ps1 ps3.
Proof.
  intros H1 H2 k. rewrite (H2 k), (H1 k).
  destruct (ps1 !! k) as [p|]; [|done]. cbn.
  by rewrite accumulate_app.
Qed.

Lemma add_reactive_accumulated (ps : gmap string parameter) (param : string)
    (amount : number) :
  accumulated [(param, amount)] ps (add_reactive ps param amount).
Proof.
  intros k. unfold add_reactive. simpl.
  destruct (ps !! param) as [p|] eqn:Hp.
  - destruct (decide (param = k)) as [<-|Hne].
    + by rewrite lookup_insert_eq, Hp.
    + rewrite lookup_insert_ne by exact Hne.
      destruct (ps !! k) as [q|]; [|done]. simpl.
      by rewrite set_reactive_same.
  - destruct (decide (param = k)) as [<-|Hne].
    + by rewrite Hp.
    + destruct (ps !! k) as [q|]; [|done]. simpl.
      by rewrite set_reactive_same.
Qed.

Lemma contribute_shape (ps ps' : gmap string parameter) (c : contribution) :
  contribute rels ps c = Some ps' ->
  accumulated (contribution_deltas rels c) ps ps'.
Proof.
  destruct c as [name intensity | param amount]; simpl.
  - rewrite applyRelationship_run. intros H k.
    by apply forEach_bump_lookup.
  - intros [= <-]. apply add_reactive_accumulated.
Qed.

Lemma frame_shape (frame : list contribution) :
  forall ps ps' : gmap string parameter,
    forEach (contribute rels) frame ps = Some ps' ->
    accumulated (frame_deltas rels frame) ps ps'.
Proof.
  induction frame as [|c frame IH]; intros ps ps' H; simpl in *.
  - injection H as <-. apply accumulated_refl.
  - destruct (contribute rels ps c) as [ps1|] eqn:E; [|discriminate].
    eapply accumulated_trans; [by apply contribute_shape | by apply IH].
Qed.

End TickShape.

Section TickLookup.

Variables (rels : gmap string relationship) (facs : factors).

Lemma processReactivity_lookup (fuel : nat) (frame : list contribution)
    (ps ps' : gmap string parameter) (param : string) :
  processReactivity fuel rels facs frame ps = Some ps' ->
  ps' !! param = ps !! param ≫= tick_parameter fuel rels facs frame param.
Proof.
  unfold processReactivity. intros H.
  destruct (forEach _ frame _) as [ps1|] eqn:E1; [|discriminate].
  destruct (applyParameterRelationships fuel ps1) as [ps2|] eqn:E2;
    [|discriminate].
  injection H as <-.
  pose proof (frame_shape rels frame _ _ E1) as Hacc.
  rewrite smoothParameters_lookup.
  rewrite (applyParameterRelationships_lookup _ _ _ _ E2).
  rewrite (Hacc param), lookup_fmap.
  destruct (ps !! param) as [q|]; [|done]. cbn.
  unfold combine, tick_parameter. cbn.
  by destruct (constrainParameter fuel param _).
Qed.

(** A tick that returns has returned for every parameter. *)
Lemma processReactivity_keys (fuel : nat) (frame : list contribution)
    (ps ps' : gmap string parameter) (param : string) :
  processReactivity fuel rels facs frame ps = Some ps' ->
  is_Some (ps' !! param) <-> is_Some (ps !! param).
Proof.
  intros H. rewrite (processReactivity_lookup _ _ _ _ param H).
  unfold processReactivity in H.
  destruct (forEach _ frame _) as [ps1|] eqn:E1; [|discriminate].
  destruct (applyParameterRelationships fuel ps1) as [ps2|] eqn:E2;
    [|discriminate].
  pose proof (frame_shape rels frame _ _ E1) as Hacc.
  destruct (ps !! param) as [q|] eqn:Hq; cbn.
  - split; [eauto|]. intros _.
    assert (H1 : ps1 !! param
                 = Some (set_reactive
                           (accumulate param (frame_deltas rels frame)
                              (num 0))
                           (set_reactive (num 0) q))).
    { by rewrite (Hacc param), lookup_fmap, Hq. }
    unfold applyParameterRelationships in E2.
    case_decide as Hall; [|discriminate].
    destruct (Hall _ _ H1) as [q' Hq'].
    apply combine_shape in Hq' as (v & Hv & _). cbn in Hv.
    unfold tick_parameter. rewrite Hv. eauto.
  - split; intros [? ?]; discriminate.
Qed.

End TickLookup.

(** A tick treats every parameter on its own.  The record that
    [processReactivity] leaves for a parameter is computed from the
    parameter's base, its previous smoothed value and the frame: the
    accumulator restarts from zero, the value is the constrained sum, and
    smoothed moves towards the value by the factor of the parameter's
    category.  The previous accumulator and value, and the other
    parameters, play no part; the base is kept; no key is added or
    removed, so the snapshot has an entry for every parameter. *)
Theorem tick_parameterwise (fuel : nat) (rels : gmap string relationship)
    (facs : factors) (frame : list contribution)
    (ps ps' : gmap string parameter) :
  processReactivity fuel rels facs frame ps = Some ps' ->
  (forall param,
     ps' !! param
     = ps !! param ≫= tick_parameter fuel rels facs frame param) /\
  (forall param, base_of ps' param = base_of ps param) /\
  dom ps' = dom ps /\
  dom (finalParameters ps') = dom ps.
Proof.
  intros H.
  pose proof (fun param => processReactivity_lookup rels facs _ _ _ _ param H)
    as Hlook.
  pose proof (fun param => processReactivity_keys rels facs _ _ _ _ param H)
    as Hsome.
  split; [exact Hlook|]. split; [|split].
  - intros param. unfold base_of. rewrite Hlook.
    destruct (ps !! param) as [q|] eqn:Hq; [|done]. cbn.
    destruct (proj2 (Hsome param) ltac:(rewrite Hq; eauto)) as [q' Hq'].
    rewrite Hlook, Hq in Hq'. cbn in Hq'. rewrite Hq'. cbn.
    unfold tick_parameter in Hq'.
    destruct (constrainParameter fuel param _); [|discriminate].
    by injection Hq' as <-.
  - apply set_eq. intros k. rewrite !elem_of_dom. apply Hsome.
  - unfold finalParameters. rewrite dom_fmap_L.
    apply set_eq. intros k. rewrite !elem_of_dom. apply Hsome.
Qed.

Lemma tick_parameterwise_witness :
  processReactivity 0 relationships smoothingFactors frame_A parameters
    = Some after_frame_A /\
  (forall param,
     after_frame_A !! param
     = parameters !! param
         ≫= tick_parameter 0 relationships smoothingFactors frame_A param) /\
  (forall param, base_of after_frame_A param = base_of parameters param) /\
  dom after_frame_A = dom parameters /\
  dom (finalParameters after_frame_A) = dom parameters.
Proof.
  assert (H : processReactivity 0 relationships smoothingFactors frame_A
                parameters = Some after_frame_A) by (by vm_compute).
  split; [exact H|].
  exact (tick_parameterwise 0 relationships smoothingFactors frame_A
           parameters after_frame_A H).
Defined.

(** ** More on the constraint policy *)

(** [constrainParameter] is a projection: a value it returns is returned
    unchanged when it is constrained again, without entering a loop. *)
Theorem constrainParameter_idempotent (fuel : nat) (param : string)
    (v r : number) :
  constrainParameter fuel param v = Some r ->
  constrainParameter 0 param r = Some r.
Proof.
  unfold constrainParameter.
  destruct (constraints !! param) as [c|] eqn:Hc; [|done].
  destruct (constraint_bounds _ _ Hc) as (lo & hi & Hmin & Hmax & Hlt).
  intros H.
  assert (Hr : r = NaN \/ exists x, r = Fin x /\ lo <= x /\ x <= hi).
  { destruct (wrap c) eqn:Hw.
    - destruct v as [| | |x].
      + rewrite (constrain_NaN c lo hi Hmin Hmax) in H. injection H as <-.
        by left.
      + by rewrite (constrain_wrap_infinite c lo hi Hmin Hmax) in H by auto.
      + by rewrite (constrain_wrap_infinite c lo hi Hmin Hmax) in H by auto.
      + destruct (constrain_wrap_finite c lo hi Hmin Hmax Hlt x Hw)
          as (n & y & k & Hn & H1 & H2 & _).
        pose proof (constrain_mono _ _ (fuel `max` n)%nat _ _ H
                      ltac:(lia)) as H'.
        rewrite Hn in H' by lia. injection H' as <-. right. eauto.
    - destruct (decide (v = NaN)) as [-> | Hv].
      + rewrite (constrain_NaN c lo hi Hmin Hmax) in H. injection H as <-.
        by left.
      + destruct (constrain_clamp c lo hi Hmin Hmax Hlt fuel v Hw Hv)
          as (y & Hy & H1 & H2 & _).
        rewrite Hy in H. injection H as <-. right. eauto. }
  destruct Hr as [-> | (x & -> & H1 & H2)].
  - by apply (constrain_NaN c lo hi).
  - unfold constrain. destruct (wrap c) eqn:Hw.
    + rewrite while_below_eq, Hmin, lt_Fin.
      rewrite (proj2 (Qcltb_ge x lo) H1).
      rewrite while_above_eq, Hmax, gt_Fin.
      by rewrite (proj2 (Qcltb_ge hi x) H2).
    + destruct (constrain_clamp c lo hi Hmin Hmax Hlt 0 (Fin x) Hw
                  ltac:(discriminate)) as (y & Hy & _ & _ & Hid).
      unfold constrain in Hy. rewrite Hw in Hy. rewrite Hy.
      by rewrite (Hid x eq_refl H1 H2).
Qed.

Lemma constrainParameter_idempotent_witness :
  constrainParameter 3 "hue" (num (-725)) = Some (num 355) /\
  constrainParameter 0 "hue" (num 355) = Some (num 355).
Proof.
  assert (H : constrainParameter 3 "hue" (num (-725)) = Some (num 355))
    by (by vm_compute).
  split; [exact H|].
  exact (constrainParameter_idempotent 3 "hue" (num (-725)) (num 355) H).
Defined.

(** An infinite raw value of a bounded parameter is clamped to the bound
    on its side, whatever the fuel: +Infinity gives [max], -Infinity
    gives [min]. *)
Theorem bounded_parameter_clamps_infinity (fuel : nat) (param : string)
    (c : constraint) :
  constraints !! param = Some c -> wrap c = false ->
  constrainParameter fuel param PosInf = Some (max c) /\
  constrainParameter fuel param NegInf = Some (min c).
Proof.
  intros Hc Hw. unfold constrainParameter, constrain. rewrite Hc, Hw.
  destruct (constraint_bounds _ _ Hc) as (lo & hi & Hmin & Hmax & Hlt).
  rewrite Hmin, Hmax. cbn.
  by rewrite (proj2 (Qcltb_lt lo hi) Hlt).
Qed.

Lemma bounded_parameter_clamps_infinity_witness :
  constraints !! "chaos"%string = Some (bounded 0 1) /\
  constrainParameter 0 "chaos" PosInf = Some (num 1) /\
  constrainParameter 0 "chaos" NegInf = Some (num 0).
Proof.
  split; [reflexivity|].
  apply (bounded_parameter_clamps_infinity 0 "chaos" (bounded 0 1));
    reflexivity.
Defined.

(** ** The smoother along a history *)

Section SmoothStep.

(** Each of the four factors of [this.smoothingFactors] is strictly
    between 0 and 1. *)
Lemma default_factor (param : string) :
  exists f, smoothingFactor smoothingFactors param = Fin f /\ 0 < f /\ f < 1.
Proof.
  unfold smoothingFactor, smoothingFactors. cbn [rotations color core advanced].
  destruct (String.prefix _ _);
    [|destruct (is_member _ _); [|destruct (is_member _ _)]];
    eexists; (split; [reflexivity|]); split; by apply Qcltb_lt.
Qed.

Lemma smooth_Fin (facs : factors) (param : string) (p : parameter)
    (s v f : Qc) :
  smoothed p = Fin s -> value p = Fin v ->
  smoothingFactor facs param = Fin f ->
  smoothed (smooth facs param p) = Fin (s + (v + - s) * f).
Proof.
  intros Hs Hv Hf. unfold smooth, set_smoothed. cbn [smoothed].
  by rewrite Hs, Hv, Hf.
Qed.

Lemma step_between (s v f : Qc) :
  0 < f -> f < 1 ->
  (s < v -> s < s + (v + - s) * f /\ s + (v + - s) * f < v) /\
  (v < s -> v < s + (v + - s) * f /\ s + (v + - s) * f < s) /\
  (s = v -> s + (v + - s) * f = v).
Proof.
  intros H0 H1. split; [|split].
  - intros H. revert H0 H1 H. qc_arith. split; nra.
  - intros H. revert H0 H1 H. qc_arith. split; nra.
  - intros ->. ring.
Qed.

Lemma step_within (lo hi s v f : Qc) :
  0 <= f -> f <= 1 -> lo <= s -> s <= hi -> lo <= v -> v <= hi ->
  lo <= s + (v + - s) * f /\ s + (v + - s) * f <= hi.
Proof. qc_arith. split; nra. Qed.

End SmoothStep.



Section Histories.

Variable rels : gmap string relationship.
Variable facs : factors.

(** What a tick makes of a store whose bases are finite, when the frame
    does not throw and brings finite changes: it returns, given enough
    fuel, and every parameter gets a finite accumulator and a finite
    value that is [constrained]. *)
Lemma tick_returns (frame : list contribution)
    (ps : gmap string parameter) :
  finite_bases ps ->
  is_Some (forEach (contribute rels) frame (set_reactive (num 0) <$> ps)) ->
  Forall (fun d => is_finite d.2) (frame_deltas rels frame) ->
  exists n ps',
    (forall m, (n <= m)%nat ->
       processReactivity m rels facs frame ps = Some ps') /\
    (forall k, is_Some (ps' !! k) <-> is_Some (ps !! k)) /\
    forall k q,
      ps !! k = Some q ->
      exists r v,
        accumulate k (frame_deltas rels frame) (num 0) = Fin r /\
        constrained k (base q + Fin r)%num (Fin v) /\
        ps' !! k
        = Some (mkParam (Fin v) (base q) (Fin r)
                  (smoothed q
                   + (Fin v - smoothed q) * smoothingFactor facs k)%num).
Proof.
  intros Hbase [ps1 Hps1] Hds.
  pose proof (frame_shape rels frame _ _ Hps1) as Hacc.
  assert (Hlook1 : forall k,
            ps1 !! k
            = (fun q => mkParam (value q) (base q)
                          (accumulate k (frame_deltas rels frame) (num 0))
                          (smoothed q))
                <$> ps !! k).
  { intros k. rewrite (Hacc k), lookup_fmap. by destruct (ps !! k). }
  assert (Hfin : finite_inputs ps1).
  { intros k q Hq. rewrite Hlook1 in Hq.
    destruct (ps !! k) as [q0|] eqn:Hq0; [|discriminate].
    injection Hq as <-. simpl. split; [by apply (Hbase k)|].
    by apply accumulate_finite. }
  destruct (uniform_fuel ps1 Hfin) as [n Hn].
  set (ps2 := map_imap (combine n) ps1).
  assert (Hps2 : forall m, (n <= m)%nat ->
                   applyParameterRelationships m ps1 = Some ps2).
  { intros m Hm. apply (applyParameterRelationships_mono n); [|exact Hm].
    unfold applyParameterRelationships.
    rewrite decide_True; [reflexivity | apply Hn; lia]. }
  assert (Hrun : forall m, (n <= m)%nat ->
            processReactivity m rels facs frame ps
            = Some (smoothParameters facs ps2)).
  { intros m Hm. unfold processReactivity. by rewrite Hps1, (Hps2 m Hm). }
  exists n, (smoothParameters facs ps2). split; [exact Hrun|]. split.
  { intros k. apply (processReactivity_keys rels facs n frame).
    apply Hrun. lia. }
  intros k q Hq.
  pose proof (processReactivity_lookup rels facs n frame ps _ k
                (Hrun n (le_n n))) as Hk.
  rewrite Hq in Hk. cbn in Hk.
  pose proof (Hbase _ _ Hq) as Hb.
  destruct (base q) as [| | |b] eqn:Eb; try done.
  pose proof (accumulate_finite k _ Hds (num 0) I) as Hr.
  unfold tick_parameter in Hk. rewrite Eb in Hk.
  destruct (accumulate k (frame_deltas rels frame) (num 0))
    as [| | |r] eqn:Er; try done.
  destruct (constrainParameter_finite k (b + r)) as (n' & v & Hn' & Hc).
  destruct (Hn n (le_n n) k _ ltac:(by rewrite Hlook1, Hq)) as [q' Hq'].
  apply combine_shape in Hq' as (v0 & Hv0 & _). cbn in Hv0.
  rewrite Eb, Er in Hv0. cbn [add] in Hv0.
  pose proof (constrainParameter_mono _ _ (n `max` n')%nat _ _ Hv0
                ltac:(lia)) as H1.
  rewrite Hn' in H1 by lia. injection H1 as <-.
  cbn [add] in Hk. rewrite Hv0 in Hk.
  exists r, v. split; [reflexivity|]. split; [exact Hc | exact Hk].
Qed.

End Histories.

Section RangeInvariant.

Variable rels : gmap string relationship.
Variable facs : factors.
Hypothesis Hmult : finite_multipliers rels.
Hypothesis Htargets : targets_in rels parameters.
Hypothesis Hfacs : factors_in_unit facs.

Lemma frame_deltas_finite (frame : list contribution) :
  Forall finite_contribution frame ->
  Forall (fun d => is_finite d.2) (frame_deltas rels frame).
Proof.
  induction 1 as [|c frame Hc _ IH]; simpl; [constructor|].
  apply Forall_app. split; [|exact IH].
  destruct c as [name intensity | param amount]; simpl in *.
  - unfold deltas_of. destruct (rels !! name) as [rel|] eqn:Hrel;
      [|constructor].
    by apply (deltas_finite rels Hmult rel name).
  - by repeat constructor.
Qed.

Lemma smoothed_ok_sound (ps : gmap string parameter) :
  map_Forall (fun k p => smoothed_ok k p = true) ps -> smoothed_in_range ps.
Proof.
  intros H k p Hp. specialize (H k p Hp). unfold smoothed_ok in H.
  destruct (smoothed p) as [| | |s]; try discriminate.
  exists s. split; [reflexivity|]. intros c Hc. rewrite Hc in H.
  destruct (min c) as [| | |lo]; try discriminate.
  destruct (max c) as [| | |hi]; try discriminate.
  apply andb_true_iff in H as [H1 H2].
  apply negb_true_iff in H1, H2. apply Qcltb_ge in H1, H2.
  exists lo, hi. auto.
Qed.

(** One tick keeps the three invariants of a store: the keys of the
    constructor's, finite bases, smoothed values in range. *)
Lemma tick_keeps_range (frame : list contribution)
    (ps : gmap string parameter) :
  registered ps -> finite_bases ps -> smoothed_in_range ps ->
  Forall finite_contribution frame ->
  exists n ps',
    (forall m, (n <= m)%nat ->
       processReactivity m rels facs frame ps = Some ps') /\
    registered ps' /\ finite_bases ps' /\ smoothed_in_range ps'.
Proof.
  intros Hreg Hbase Hrange Hframe.
  destruct (tick_returns rels facs frame ps Hbase)
    as (n & ps' & Hrun & Hkeys & Hshape).
  { destruct (frame_accumulated rels Hmult Htargets frame
                (set_reactive (num 0) <$> ps)) as (ps1 & ds & H1 & _);
      [|exact Hframe|eauto].
    intros k Hk. rewrite lookup_fmap. apply fmap_is_Some. by apply Hreg. }
  { by apply frame_deltas_finite. }
  exists n, ps'. split; [exact Hrun|]. split; [|split].
  - intros k Hk. apply Hkeys. by apply Hreg.
  - intros k q' Hq'.
    destruct (proj1 (Hkeys k) ltac:(eauto)) as [q Hq].
    destruct (Hshape k q Hq) as (r & v & _ & _ & Hk).
    rewrite Hk in Hq'. injection Hq' as <-. simpl. by apply (Hbase k).
  - intros k q' Hq'.
    destruct (proj1 (Hkeys k) ltac:(eauto)) as [q Hq].
    destruct (Hshape k q Hq) as (r & v & _ & Hc & Hk).
    rewrite Hk in Hq'. injection Hq' as <-. cbn [smoothed].
    destruct (Hrange k q Hq) as (s & Hs & Hin).
    destruct (Hfacs k) as (f & Hf & Hf0 & Hf1).
    rewrite Hs, Hf. exists (s + (v + - s) * f). split; [reflexivity|].
    intros c Hck. destruct (Hin c Hck) as (lo & hi & Hlo & Hhi & H1 & H2).
    exists lo, hi. split; [exact Hlo|]. split; [exact Hhi|].
    unfold constrained in Hc. rewrite Hck in Hc.
    destruct Hc as [(lo' & hi' & v' & Hlo' & Hhi' & Hv' & H3 & H4) _].
    rewrite Hlo in Hlo'. rewrite Hhi in Hhi'.
    injection Hlo' as <-. injection Hhi' as <-. injection Hv' as <-.
    by apply step_within.
Qed.

Lemma setBase_keeps_range (param : string) (v : number)
    (ps : gmap string parameter) :
  registered ps -> finite_bases ps -> smoothed_in_range ps -> is_finite v ->
  registered (setBaseParameter param v ps) /\
  finite_bases (setBaseParameter param v ps) /\
  smoothed_in_range (setBaseParameter param v ps).
Proof.
  intros Hreg Hbase Hrange Hv. unfold setBaseParameter.
  destruct (ps !! param) as [q|] eqn:Hq; [|auto].
  split; [|split].
  - intros k Hk. destruct (decide (param = k)) as [<-|Hne].
    + rewrite lookup_insert_eq. eauto.
    + rewrite lookup_insert_ne by exact Hne. by apply Hreg.
  - intros k p. destruct (decide (param = k)) as [<-|Hne].
    + rewrite lookup_insert_eq. by intros [= <-].
    + rewrite lookup_insert_ne by exact Hne. apply Hbase.
  - intros k p. destruct (decide (param = k)) as [<-|Hne].
    + rewrite lookup_insert_eq. intros [= <-]. by apply (Hrange param q).
    + rewrite lookup_insert_ne by exact Hne. apply Hrange.
Qed.

Lemma run_keeps_range (events : list event) :
  forall ps : gmap string parameter,
    registered ps -> finite_bases ps -> smoothed_in_range ps ->
    Forall finite_event events ->
    exists n ps',
      (forall m, (n <= m)%nat -> run m rels facs events ps = Some ps') /\
      registered ps' /\ finite_bases ps' /\ smoothed_in_range ps'.
Proof.
  induction events as [|e events IH]; intros ps Hreg Hbase Hrange Hev.
  - exists 0%nat, ps. auto.
  - apply Forall_cons in Hev as [He Hev].
    assert (Hstep : exists n1 ps1,
              (forall m, (n1 <= m)%nat -> step m rels facs ps e = Some ps1) /\
              registered ps1 /\ finite_bases ps1 /\ smoothed_in_range ps1).
    { destruct e as [frame | param v]; simpl in *.
      - by apply tick_keeps_range.
      - exists 0%nat, (setBaseParameter param v ps).
        split; [reflexivity | by apply setBase_keeps_range]. }
    destruct Hstep as (n1 & ps1 & Hn1 & Hreg1 & Hbase1 & Hrange1).
    destruct (IH ps1 Hreg1 Hbase1 Hrange1 Hev) as (n2 & ps2 & Hn2 & Hinv2).
    exists (n1 `max` n2)%nat, ps2. split; [|exact Hinv2].
    intros m Hm. unfold run. simpl. rewrite Hn1 by lia.
    apply Hn2. lia.
Qed.

End RangeInvariant.

Section ConstructorRange.

Lemma parameters_registered : registered parameters.
Proof. by intros k Hk. Qed.

Lemma parameters_finite_bases : finite_bases parameters.
Proof. apply (bool_decide_unpack _). by vm_compute. Qed.

Lemma parameters_in_range : smoothed_in_range parameters.
Proof.
  apply smoothed_ok_sound. apply (bool_decide_unpack _). by vm_compute.
Qed.

Lemma constrained_are_registered :
  map_Forall (fun k _ => is_Some (parameters !! k)) constraints.
Proof. apply (bool_decide_unpack _). by vm_compute. Qed.

Lemma default_factors_in_unit : factors_in_unit smoothingFactors.
Proof.
  intros param. destruct (default_factor param) as (f & Hf & H0 & H1).
  exists f. split; [exact Hf|]. split; by apply Qclt_le_weak.
Qed.

End ConstructorRange.



(** ** Idle convergence *)



(** ** More on relationships *)

Section Targets.

Lemma forEach_bump_missing (ds : list (string * number)) :
  forall ps : gmap string parameter,
    Exists (fun d => ps !! d.1 = None) ds -> forEach bump ds ps = None.
Proof.
  induction ds as [|[k d] ds IH]; intros ps H; [by inversion H|].
  simpl. unfold bump at 1, update_reactive. simpl.
  destruct (ps !! k) as [x|] eqn:Hk; [|done].
  apply IH. apply Exists_cons in H as [H | H]; [simpl in H; congruence|].
  eapply Exists_impl; [exact H|]. intros [j e] Hj. simpl in *.
  rewrite lookup_insert_ne; [exact Hj | congruence].
Qed.

Lemma deltas_keys_defined (rel : relationship) (intensity : number)
    (ps : gmap string parameter) :
  Forall (fun d => is_Some (ps !! d.1)) (deltas rel intensity)
  <-> Forall (fun param => is_Some (ps !! param))
             (positive rel ++ negative rel).
Proof.
  rewrite <- (deltas_targets rel intensity).
  by rewrite Forall_fmap.
Qed.

End Targets.





Section ZeroIntensity.

Variable rels : gmap string relationship.
Hypothesis Hmult : finite_multipliers rels.

Lemma or_default_Fin (v : option number) :
  (forall x, v = Some x -> x = NaN \/ is_finite x) ->
  exists m, or_default v (num 1.0) = Fin m.
Proof.
  intros Hv. pose proof (or_default_finite v (num 1.0) Hv I) as H.
  destruct (or_default v (num 1.0)) as [| | |m]; try done. eauto.
Qed.

Lemma zero_deltas (rel : relationship) (name : string) :
  rels !! name = Some rel ->
  Forall (fun d => d.2 = num 0) (deltas rel (num 0)).
Proof.
  intros Hrel. pose proof (Hmult name rel Hrel) as Hm.
  unfold deltas. apply Forall_app. split; apply Forall_fmap, Forall_forall;
    intros param _; unfold compose; cbn [snd].
  - destruct (or_default_Fin (multipliers rel !! param)) as [m ->].
    { intros x Hx. right. exact (Hm param x Hx). }
    unfold num. cbn [mul]. f_equal; ring.
  - destruct (or_default_Fin
                (Some (Math_abs_value (multipliers rel !! param))))
      as [m ->].
    { intros x [= <-]. destruct (multipliers rel !! param) as [y|] eqn:E.
      - right. pose proof (Hm param y E). destruct y; simpl in *; auto.
      - by left. }
    unfold num. cbn [mul neg]. f_equal; ring.
Qed.

Lemma accumulate_zero (param : string) (ds : list (string * number)) :
  Forall (fun d => d.2 = num 0) ds ->
  forall r, is_finite r -> accumulate param ds r = r.
Proof.
  induction 1 as [|[k d] ds Hd _ IH]; intros r Hr; simpl; [done|].
  simpl in Hd. subst d. destruct (decide (k = param)); [|by apply IH].
  destruct r as [| | |q]; try done. unfold num. cbn [add].
  replace (q + Q2Qc 0) with q by ring. by apply IH.
Qed.

End ZeroIntensity.

(** A zero intensity changes nothing.  When the multipliers of the table
    and the accumulators of the store are finite,
    [applyRelationship(name, 0)] leaves the store as it was. *)
Theorem zero_intensity_is_noop (rels : gmap string relationship)
    (relationshipName : string) (ps ps' : gmap string parameter) :
  finite_multipliers rels ->
  (forall k p, ps !! k = Some p -> is_finite (reactive p)) ->
  applyRelationship rels relationshipName (num 0) ps = Some ps' ->
  ps' = ps.
Proof.
  intros Hmult Hfin. rewrite applyRelationship_run. unfold deltas_of.
  destruct (rels !! relationshipName) as [rel|] eqn:Hrel;
    [|by intros [= <-]].
  intros H. apply map_eq. intros k.
  rewrite (forEach_bump_lookup _ _ _ k H).
  destruct (ps !! k) as [p|] eqn:Hp; [|done]. cbn.
  rewrite (accumulate_zero k _ (zero_deltas rels Hmult rel _ Hrel)).
  - by rewrite set_reactive_same.
  - by apply (Hfin k).
Qed.

Lemma zero_intensity_is_noop_witness :
  finite_multipliers relationships /\
  (forall k p, hue_plus_160 !! k = Some p -> is_finite (reactive p)) /\
  applyRelationship relationships "audioBass" (num 0) hue_plus_160
    = Some after_zero_bass /\
  after_zero_bass = hue_plus_160.
Proof.
  assert (H1 : finite_multipliers relationships).
  { apply (bool_decide_unpack _). vm_compute. reflexivity. }
  assert (H2 : forall k p, hue_plus_160 !! k = Some p ->
                           is_finite (reactive p)).
  { apply (bool_decide_unpack _). vm_compute. reflexivity. }
  assert (H3 : applyRelationship relationships "audioBass" (num 0)
                 hue_plus_160 = Some after_zero_bass).
  { vm_compute. reflexivity. }
  split; [exact H1|]. split; [exact H2|]. split; [exact H3|].
  exact (zero_intensity_is_noop relationships "audioBass" hue_plus_160
           after_zero_bass H1 H2 H3).
Defined.

Section InverseTargets.

(** The multiplier that the source reads for an inverse target is a
    positive finite number: the magnitude of the configured one, or 1
    when none is configured or the configured one is zero. *)
Lemma inverse_multiplier_positive (v : option number) :
  (forall x, v = Some x -> is_finite x) ->
  exists m, or_default (Some (Math_abs_value v)) (num 1.0) = Fin m /\ 0 < m.
Proof.
  intros Hv. destruct v as [x|]; simpl.
  - pose proof (Hv x eq_refl) as Hx. destruct x as [| | |a]; try done.
    simpl. destruct (bool_decide (Qcabs a = 0)) eqn:E; simpl.
    + eexists. split; [reflexivity | by apply Qcltb_lt].
    + exists (Qcabs a). split; [reflexivity|].
      apply bool_decide_eq_false in E.
      pose proof (Qcabs_nonneg a) as H0.
      destruct (Qcle_lt_or_eq _ _ H0) as [H | H]; [exact H | congruence].
  - eexists. split; [reflexivity | by apply Qcltb_lt].
Qed.

Lemma accumulate_other (param : string) (ds : list (string * number))
    (r : number) :
  Forall (fun d => d.1 <> param) ds -> accumulate param ds r = r.
Proof.
  intros H. revert r. induction H as [|[k d] ds Hk _ IH]; intros r; simpl;
    [done|].
  simpl in Hk. by rewrite decide_False.
Qed.

Lemma accumulate_negative (param : string) (ds : list (string * number)) :
  Forall (fun d => d.1 = param -> exists q, d.2 = Fin q /\ q < 0) ds ->
  forall r0 : Qc,
    exists r,
      accumulate param ds (Fin r0) = Fin r /\ r <= r0 /\
      (Exists (fun d => d.1 = param) ds -> r < r0).
Proof.
  induction 1 as [|[k d] ds Hd _ IH]; intros r0; simpl.
  - exists r0. split; [reflexivity|]. split; [apply Qcle_refl|].
    intros H. by inversion H.
  - destruct (decide (k = param)) as [Hk | Hk].
    + destruct (Hd Hk) as (q & Hq & Hneg). simpl in Hq. subst d. cbn [add].
      destruct (IH (r0 + q)) as (r & Hr & Hle & _).
      exists r. split; [exact Hr|].
      assert (Hlt : r < r0) by (revert Hle Hneg; qc_arith; lra).
      split; [by apply Qclt_le_weak | by intros _].
    + destruct (IH r0) as (r & Hr & Hle & Hlt).
      exists r. split; [exact Hr|]. split; [exact Hle|].
      intros H. apply Hlt. apply Exists_cons in H as [H | H]; [|exact H].
      simpl in H. congruence.
Qed.

End InverseTargets.


